(** * ai-advertisement: job store, job runner and notification hub

    A shallow embedding of the job lifecycle core of the backend:

    - [JobStorage]  : [backend/app/models/job_storage.py], the JSON file store;
    - [JobService]  : [backend/app/services/job_service.py], the [JobManager]
                      with its asyncio tasks;
    - [Hub]         : the [ConnectionManager] of [backend/main.py].

    Modelling conventions.

    - The file [jobs.json] is a value of type [option (list Job)]; [None] is a
      file that does not exist.  Reading and writing it never fails: I/O
      errors are outside the model, so [save_jobs] always answers [True].
    - [datetime.now().isoformat()] reads an oracle: the [n]-th reading of the
      wall clock is [clock w n], an arbitrary string.
    - Every collection written by [save_jobs] is also appended to a ghost log
      ([history]), so that properties of the whole sequence of persisted
      states can be stated.
    - A backend call ([generate_logo], [generate_ad_video]) either returns a
      URL or raises; what it does is chosen by the environment.
    - The event loop is single-threaded: a task runs from one [await] to the
      next without interruption, and requests are served in between.
      [uuid4] is taken never to repeat an id. *)

From Stdlib Require Import ZArith String Ascii List Bool Lia.
From stdpp Require Import gmap strings list fin_maps.

Local Open Scope string_scope.
Local Open Scope Z_scope.

(** ** A state monad in the style of the code: statements in sequence *)

Definition State (S A : Type) : Type := S -> A * S.

Definition ret {S A} (a : A) : State S A := fun s => (a, s).

Definition bind {S A B} (m : State S A) (k : A -> State S B) : State S B :=
  fun s => let (a, s') := m s in k a s'.

Notation "'do' x <- m ; k" := (bind m (fun x => k))
  (at level 10, x name, m at level 100, k at level 200, only parsing).
Notation "m ;; k" := (bind m (fun _ => k))
  (at level 100, k at level 200, right associativity, only parsing).

(* ================================================================== *)
(** * job_storage.py *)
(* ================================================================== *)

Module JobStorage.

(** [class JobStatus(Enum)] and its [.value]. *)
Inductive JobStatus : Set := PENDING | PROCESSING | COMPLETED | FAILED.

Definition JobStatus_value (s : JobStatus) : string :=
  match s with
  | PENDING => "pending"
  | PROCESSING => "processing"
  | COMPLETED => "completed"
  | FAILED => "failed"
  end.

(** [class JobType(Enum)]. *)
Inductive JobType : Set := LOGO | VIDEO | BOTH.

Definition JobType_value (t : JobType) : string :=
  match t with
  | LOGO => "logo"
  | VIDEO => "video"
  | BOTH => "both"
  end.

(** The dictionary built by [create_job], one field per key.  The two enum
    fields hold the enum member whose [.value] the dictionary stores. *)
Record Job : Type := mkJob {
  job_id        : string;
  prompt        : string;
  job_type      : JobType;
  status        : JobStatus;
  logo_url      : option string;
  video_url     : option string;
  error_message : option string;
  created_at    : string;
  started_at    : option string;
  completed_at  : option string;
  progress      : Z;
  user_id       : string
}.

(** Assignments [job[key] = v], one per key the code assigns. *)
Definition set_status (v : JobStatus) (j : Job) : Job :=
  mkJob (job_id j) (prompt j) (job_type j) v (logo_url j) (video_url j)
        (error_message j) (created_at j) (started_at j) (completed_at j)
        (progress j) (user_id j).

Definition set_progress (v : Z) (j : Job) : Job :=
  mkJob (job_id j) (prompt j) (job_type j) (status j) (logo_url j) (video_url j)
        (error_message j) (created_at j) (started_at j) (completed_at j)
        v (user_id j).

Definition set_logo_url (v : string) (j : Job) : Job :=
  mkJob (job_id j) (prompt j) (job_type j) (status j) (Some v) (video_url j)
        (error_message j) (created_at j) (started_at j) (completed_at j)
        (progress j) (user_id j).

Definition set_video_url (v : string) (j : Job) : Job :=
  mkJob (job_id j) (prompt j) (job_type j) (status j) (logo_url j) (Some v)
        (error_message j) (created_at j) (started_at j) (completed_at j)
        (progress j) (user_id j).

Definition set_error_message (v : string) (j : Job) : Job :=
  mkJob (job_id j) (prompt j) (job_type j) (status j) (logo_url j) (video_url j)
        (Some v) (created_at j) (started_at j) (completed_at j)
        (progress j) (user_id j).

Definition set_started_at (v : string) (j : Job) : Job :=
  mkJob (job_id j) (prompt j) (job_type j) (status j) (logo_url j) (video_url j)
        (error_message j) (created_at j) (Some v) (completed_at j)
        (progress j) (user_id j).

Definition set_completed_at (v : string) (j : Job) : Job :=
  mkJob (job_id j) (prompt j) (job_type j) (status j) (logo_url j) (video_url j)
        (error_message j) (created_at j) (started_at j) (Some v)
        (progress j) (user_id j).

(** [if v is not None: job[key] = v]. *)
Definition assign_if_given {A} (set : A -> Job -> Job) (v : option A) (j : Job) : Job :=
  match v with
  | Some x => set x j
  | None => j
  end.

(** The part of the process state the store touches. *)
Record World : Type := mkWorld {
  jobs_file : option (list Job);   (* jobs.json; None: no such file *)
  clock     : nat -> string;       (* the n-th reading of datetime.now() *)
  readings  : nat;                 (* readings taken so far *)
  history   : list (list Job)      (* ghost: every collection saved, newest first *)
}.

Definition M (A : Type) : Type := State World A.

(** [load_jobs]: the file's collection, or an empty one when there is none. *)
Definition load_jobs : M (list Job) :=
  fun w => (match jobs_file w with Some jobs => jobs | None => [] end, w).

(** [save_jobs]: whole-file replace. *)
Definition save_jobs (jobs_data : list Job) : M bool :=
  fun w => (true, mkWorld (Some jobs_data) (clock w) (readings w)
                          (jobs_data :: history w)).

(** [datetime.now().isoformat()]. *)
Definition datetime_now : M string :=
  fun w => (clock w (readings w),
            mkWorld (jobs_file w) (clock w) (S (readings w)) (history w)).

(** The collection a reader sees. *)
Definition stored (w : World) : list Job := fst (load_jobs w).

Definition create_job (job_id prompt : string) (job_type : JobType)
    (user_id : string) : M bool :=
  do jobs_data <- load_jobs;
  do now <- datetime_now;
  let new_job := mkJob job_id prompt job_type PENDING None None None
                       now None None 0 user_id in
  save_jobs (new_job :: jobs_data).        (* jobs_data["jobs"].insert(0, new_job) *)

(** The search loop of [update_job_status]: index of the first job with the
    id ([None] stands for [job_index == -1]). *)
Fixpoint find_job_index (id : string) (jobs : list Job) : option nat :=
  match jobs with
  | [] => None
  | job :: rest =>
      if String.eqb (job_id job) id then Some 0%nat
      else S <$> find_job_index id rest
  end.

(** The timestamp block at the end of [update_job_status]. *)
Definition add_timestamps (st : JobStatus) (progress : option Z) (job : Job) : M Job :=
  match st with
  | PROCESSING =>
      do now <- datetime_now;
      ret (set_started_at now job)
  | COMPLETED | FAILED =>
      do now <- datetime_now;
      let job := set_completed_at now job in
      ret (match progress with
           | None => set_progress 100 job
           | Some _ => job
           end)
  | PENDING => ret job
  end.

Definition update_job_status (id : string) (st : JobStatus)
    (progress : option Z) (logo_url video_url error_message : option string)
    : M bool :=
  do jobs_data <- load_jobs;
  match find_job_index id jobs_data with
  | None => ret false
  | Some job_index =>
      match jobs_data !! job_index with
      | None => ret false
      | Some job =>
          let job := set_status st job in
          let job := assign_if_given set_progress progress job in
          let job := assign_if_given set_logo_url logo_url job in
          let job := assign_if_given set_video_url video_url job in
          let job := assign_if_given set_error_message error_message job in
          do job <- add_timestamps st progress job;
          save_jobs (<[job_index := job]> jobs_data)
      end
  end.

(** [get_job]: the first job with the id. *)
Definition get_job (id : string) : M (option Job) :=
  do jobs_data <- load_jobs;
  ret (List.find (fun job => String.eqb (job_id job) id) jobs_data).


(** [delete_job]: keep the jobs with another id, save. *)
Definition delete_job (id : string) : M bool :=
  do jobs_data <- load_jobs;
  save_jobs (List.filter (fun job => negb (String.eqb (job_id job) id)) jobs_data).

(** Ids of the jobs of a collection, and the test the search loops apply. *)
Definition job_ids (jobs : list Job) : list string := map job_id jobs.

Definition has_id (id : string) (job : Job) : bool := String.eqb (job_id job) id.

(** The job that [update_job_status] writes in place of [job]. *)
Definition updated_job (st : JobStatus) (progress : option Z)
    (logo video err : option string) (w : World) (job : Job) : Job :=
  fst (add_timestamps st progress
         (assign_if_given set_error_message err
           (assign_if_given set_video_url video
             (assign_if_given set_logo_url logo
               (assign_if_given set_progress progress
                 (set_status st job))))) w).

(** [get_user_jobs]: the loop appends the jobs of the user and leaves as soon
    as [len(user_jobs) >= limit]; the test comes after the [append]. *)
Fixpoint user_jobs_loop (user : string) (limit : Z) (jobs : list Job)
    (user_jobs : list Job) : list Job :=
  match jobs with
  | [] => user_jobs
  | job :: rest =>
      if String.eqb (user_id job) user then
        let user_jobs := (user_jobs ++ [job])%list in
        if limit <=? Z.of_nat (length user_jobs) then user_jobs      (* break *)
        else user_jobs_loop user limit rest user_jobs
      else user_jobs_loop user limit rest user_jobs
  end.

Definition get_user_jobs (user : string) (limit : Z) : M (list Job) :=
  do jobs_data <- load_jobs;
  ret (user_jobs_loop user limit jobs_data []).

(** [job["status"] in [PENDING.value, PROCESSING.value]]. *)
Definition is_pending (job : Job) : bool :=
  match status job with
  | PENDING | PROCESSING => true
  | COMPLETED | FAILED => false
  end.

Definition get_pending_jobs : M (list Job) :=
  do jobs_data <- load_jobs;
  ret (List.filter is_pending jobs_data).

End JobStorage.

(* ================================================================== *)
(** * job_service.py *)
(* ================================================================== *)

Module JobService.
Import JobStorage.

(** What a blocking backend call does: it returns an asset URL, or raises an
    exception [e]; [cause] is [str(e)]. *)
Inductive Outcome : Type :=
| Returned (url : string)
| Raised (cause : string).

(** What an [await] delivers when the task is resumed.  [task.cancel()] makes
    the pending [await] raise [CancelledError], which derives from
    [BaseException]: no [except Exception] clause catches it. *)
Inductive Resumption : Type :=
| Result (o : Outcome)
| CancelledError.

(** Calls handed to the thread pool by [run_in_executor]. *)
Inductive BackendCall : Type :=
| generate_logo (prompt : string)
| generate_ad_video (prompt : string) (logo_image_path : option string).

(** Where the coroutine [_process_job] is suspended. *)
Inductive TaskState : Type :=
| NotStarted
| AwaitingLogo
| AwaitingVideo (logo_url : string)
| Finished.

(** An asyncio task running [_process_job(job_id, prompt, generate_video)];
    [job_id] is the key under which the task is kept. *)
Record Task : Type := mkTask {
  task_prompt         : string;
  task_generate_video : bool;
  task_state          : TaskState;
  must_cancel         : bool
}.

(** An entry of [active_jobs].  Its ["task"] is the task kept under the same
    job id; its ["started_at"], a reading of the event loop's clock that is
    never used, is left out. *)
Record JobInfo : Type := mkJobInfo {
  info_prompt         : string;
  info_generate_video : bool;
  info_user_id        : string
}.

Record Service : Type := mkService {
  world         : World;
  active_jobs   : gmap string JobInfo;
  tasks         : gmap string Task;
  backend_calls : list BackendCall      (* ghost: calls made, oldest first *)
}.

Definition R (A : Type) : Type := State Service A.

(** A call into the store. *)
Definition store {A} (m : M A) : R A :=
  fun s => let (a, w) := m (world s) in
           (a, mkService w (active_jobs s) (tasks s) (backend_calls s)).

Definition run_in_executor (c : BackendCall) : R unit :=
  fun s => (tt, mkService (world s) (active_jobs s) (tasks s)
                          (backend_calls s ++ [c])%list).

(** [if job_id in self.active_jobs: del self.active_jobs[job_id]]. *)
Definition finally_clean_up (job_id : string) : R unit :=
  fun s => (tt, mkService (world s) (delete job_id (active_jobs s)) (tasks s)
                          (backend_calls s)).

(** [logo_url.split('/')[-1]]: what follows the last slash. *)
Fixpoint last_segment (acc s : string) : string :=
  match s with
  | EmptyString => acc
  | String c rest =>
      if Ascii.eqb c "/"%char then last_segment "" rest
      else last_segment (acc +:+ String c "") rest
  end.

(** The reference handed to the video backend. *)
Definition logo_path_of (logo_url : string) : option string :=
  if String.eqb logo_url "" then None                  (* if logo_url: *)
  else Some ("output/" +:+ last_segment "" logo_url).

(** The coroutine [_process_job] is cut at its two [await]s into three
    segments; the event loop runs a segment without interruption.  The
    outer [except Exception] clause has no counterpart: every statement of
    the body that can raise stands inside one of the two inner [try] blocks,
    and [update_job_status] catches its own exceptions. *)

(** [_process_job], from its entry to the first [await]. *)
Definition process_job_start (job_id prompt : string) : R TaskState :=
  store (update_job_status job_id PROCESSING (Some 10) None None None) ;;
  store (update_job_status job_id PROCESSING (Some 30) None None None) ;;
  run_in_executor (generate_logo prompt) ;;
  ret AwaitingLogo.

(** The last statement of the [try] block, then the [finally] clause. *)
Definition mark_completed (job_id logo_url : string) (video_url : option string)
    : R TaskState :=
  store (update_job_status job_id COMPLETED (Some 100) (Some logo_url) video_url None) ;;
  finally_clean_up job_id ;;
  ret Finished.

(** [_process_job], resumed at [await ... generate_logo], up to the next
    [await] or to its end. *)
Definition process_job_logo_done (job_id prompt : string) (generate_video : bool)
    (r : Resumption) : R TaskState :=
  match r with
  | Result (Returned logo_url) =>
      store (update_job_status job_id PROCESSING (Some 60) (Some logo_url) None None) ;;
      if generate_video then
        store (update_job_status job_id PROCESSING (Some 70) None None None) ;;
        run_in_executor (generate_ad_video prompt (logo_path_of logo_url)) ;;
        ret (AwaitingVideo logo_url)
      else mark_completed job_id logo_url None
  | Result (Raised e) =>
      store (update_job_status job_id FAILED None None None
               (Some ("Logo generation failed: " +:+ e))) ;;
      finally_clean_up job_id ;;                       (* return *)
      ret Finished
  | CancelledError =>
      finally_clean_up job_id ;;
      ret Finished
  end.

(** [_process_job], resumed at [await ... generate_ad_video], to its end. *)
Definition process_job_video_done (job_id logo_url : string) (r : Resumption)
    : R TaskState :=
  match r with
  | Result (Returned video_url) =>
      store (update_job_status job_id PROCESSING (Some 90) (Some logo_url)
               (Some video_url) None) ;;
      mark_completed job_id logo_url (Some video_url)
  | Result (Raised e) =>
      mark_completed job_id logo_url None              (* video_url = None *)
  | CancelledError =>
      finally_clean_up job_id ;;
      ret Finished
  end.

(** [_process_job] run from entry to exit with nothing cancelling it;
    [logo_result] and [video_result] are what the two backends do when (and
    if) they are called. *)
Definition _process_job (job_id prompt : string) (generate_video : bool)
    (logo_result video_result : Outcome) : R unit :=
  do _ <- process_job_start job_id prompt;
  do st <- process_job_logo_done job_id prompt generate_video (Result logo_result);
  match st with
  | AwaitingVideo logo_url =>
      process_job_video_done job_id logo_url (Result video_result) ;;
      ret tt
  | _ => ret tt
  end.

Definition set_task (job_id : string) (t : Task) : R unit :=
  fun s => (tt, mkService (world s) (active_jobs s) (<[job_id := t]> (tasks s))
                          (backend_calls s)).

(** [start_generation_job]; [job_id] is the value of
    [f"job_{uuid.uuid4().hex[:12]}"].  The answer is the job id, or [None]
    when the function raises. *)
Definition start_generation_job (job_id prompt : string) (generate_video : bool)
    (user_id : string) : R (option string) :=
  let job_type := if generate_video then BOTH else LOGO in
  do created <- store (create_job job_id prompt job_type user_id);
  if negb created then ret None                        (* raise Exception *)
  else
    set_task job_id (mkTask prompt generate_video NotStarted false) ;;
    (fun s => (Some job_id,
               mkService (world s)
                 (<[job_id := mkJobInfo prompt generate_video user_id]> (active_jobs s))
                 (tasks s) (backend_calls s))).

(** [Task.cancel()]: a task that is not done is marked; the mark turns into a
    [CancelledError] the next time the task is resumed. *)
Definition task_cancel (t : Task) : Task :=
  match task_state t with
  | Finished => t
  | _ => mkTask (task_prompt t) (task_generate_video t) (task_state t) true
  end.

Definition cancel_job (job_id : string) : R bool :=
  fun s =>
    match active_jobs s !! job_id with
    | Some job_info =>
        (store (update_job_status job_id FAILED None None None
                  (Some "Job cancelled by user")) ;;
         ret true)
          (mkService (world s)
             (delete job_id (active_jobs s))                   (* del *)
             (alter task_cancel job_id (tasks s))              (* task.cancel() *)
             (backend_calls s))
    | None => (false, s)
    end.

Definition get_active_jobs_count (s : Service) : nat := size (active_jobs s).

(** The event loop resumes the task of [job_id]; [o] is what the awaited
    backend call did (it is looked at only when the task awaits one and has
    not been cancelled).  A task cancelled before its first step never
    enters the coroutine's body. *)
Definition resume_task (job_id : string) (t : Task) (o : Outcome) : R unit :=
  let r := if must_cancel t then CancelledError else Result o in
  do st <-
    match task_state t with
    | NotStarted =>
        if must_cancel t then ret Finished
        else process_job_start job_id (task_prompt t)
    | AwaitingLogo =>
        process_job_logo_done job_id (task_prompt t) (task_generate_video t) r
    | AwaitingVideo logo_url =>
        process_job_video_done job_id logo_url r
    | Finished => ret Finished
    end;
  set_task job_id (mkTask (task_prompt t) (task_generate_video t) st false).

(** One turn of the single-threaded event loop: a request starts a job under
    an id that [uuid4] has not produced before, a suspended task runs up to
    its next [await], or a cancel request is served. *)
Inductive step : Service -> Service -> Prop :=
| step_start (s : Service) (job_id prompt : string) (generate_video : bool)
    (user_id : string) :
    job_id ∉ job_ids (stored (world s)) ->
    tasks s !! job_id = None ->
    step s (snd (start_generation_job job_id prompt generate_video user_id s))
| step_resume (s : Service) (job_id : string) (t : Task) (o : Outcome) :
    tasks s !! job_id = Some t ->
    task_state t <> Finished ->
    step s (snd (resume_task job_id t o s))
| step_cancel (s : Service) (job_id : string) :
    step s (snd (cancel_job job_id s)).

(** The service as it comes up: no job is active, and the file (left by an
    earlier run, or absent) names each job once. *)
Definition initial (s : Service) : Prop :=
  active_jobs s = ∅ /\ tasks s = ∅ /\ backend_calls s = [] /\
  NoDup (job_ids (stored (world s))) /\
  history (world s) = [stored (world s)].

Inductive reachable : Service -> Prop :=
| reachable_initial (s : Service) : initial s -> reachable s
| reachable_step (s s' : Service) : reachable s -> step s s' -> reachable s'.

(** Order of the lifecycle: Pending, then Processing, then one of the two
    final states. *)
Definition rank (st : JobStatus) : nat :=
  match st with
  | PENDING => 0
  | PROCESSING => 1
  | COMPLETED | FAILED => 2
  end.

Definition terminal (st : JobStatus) : Prop := st = COMPLETED \/ st = FAILED.

(** [forward a b]: the status stays, or moves to a later stage. *)
Definition forward (a b : JobStatus) : Prop := a = b \/ (rank a < rank b)%nat.

(** Persisted status of a job id in a collection: that of the job [get_job]
    answers. *)
Definition status_in (jobs : list Job) (id : string) : option JobStatus :=
  status <$> List.find (has_id id) jobs.

(** The persisted collections in the order they were written. *)
Definition timeline (s : Service) : list (list Job) :=
  reverse (history (world s)).

(** From one persisted collection to a later one, every id keeps a record
    and its status does not move backwards. *)
Definition advances (old new : list Job) : Prop :=
  forall id a, status_in old id = Some a ->
               exists b, status_in new id = Some b /\ forward a b.

(** Each entry of the log (newest first) advances on the one before it. *)
Fixpoint monotone (log : list (list Job)) : Prop :=
  match log with
  | new :: rest =>
      match rest with
      | old :: _ => advances old new
      | [] => True
      end /\ monotone rest
  | [] => True
  end.

(** What holds of the file and its log after every write. *)
Record well_formed (w : World) : Prop := {
  log_head     : exists rest, history w = stored w :: rest;
  log_unique   : Forall (fun jobs => NoDup (job_ids jobs)) (history w);
  log_monotone : monotone (history w)
}.

(** [touches_only id b s s']: from [s] to [s'] the store stays well formed,
    the job [id] is now in status [b], no other id's status has changed, and
    neither the tasks nor the registry entries of other ids have. *)
Definition touches_only (id : string) (b : JobStatus) (s s' : Service) : Prop :=
  well_formed (world s') /\
  status_in (stored (world s')) id = Some b /\
  (forall id', id' <> id ->
     status_in (stored (world s')) id' = status_in (stored (world s)) id') /\
  tasks s' = tasks s /\
  (forall id', id' <> id -> active_jobs s' !! id' = active_jobs s !! id').

(** A task that will run again, and has not been asked to stop. *)
Definition live (t : Task) : Prop :=
  task_state t <> Finished /\ must_cancel t = false.

(** The status the pipeline has persisted when it is suspended at a state. *)
Definition status_at (st : TaskState) : JobStatus :=
  match st with
  | NotStarted => PENDING
  | _ => PROCESSING
  end.

(** What holds between two turns of the event loop: the registry holds
    exactly the ids of the live tasks, and the record of a live task is in
    the store, in the status its pipeline wrote last. *)
Record consistent (s : Service) : Prop := {
  store_ok        : well_formed (world s);
  live_registered : forall id t, tasks s !! id = Some t -> live t ->
      is_Some (active_jobs s !! id) /\
      status_in (stored (world s)) id = Some (status_at (task_state t));
  registered_live : forall id info, active_jobs s !! id = Some info ->
      exists t, tasks s !! id = Some t /\ live t
}.

(** [JobManager.get_job_status]. *)
Definition get_job_status (job_id : string) : R (option Job) :=
  store (get_job job_id).

(** Progress of a job id in a collection: that of the job [get_job]
    answers. *)
Definition progress_in (id : string) (jobs : list Job) : option Z :=
  progress <$> List.find (has_id id) jobs.

(** From one persisted collection to a later one, every id keeps a record
    and its progress does not go down. *)
Definition progress_advances (old new : list Job) : Prop :=
  forall id p, progress_in id old = Some p ->
               exists q, progress_in id new = Some q /\ p <= q.

(** Each entry of the log (newest first) advances on the one before it. *)
Fixpoint progress_monotone (log : list (list Job)) : Prop :=
  match log with
  | new :: rest =>
      match rest with
      | old :: _ => progress_advances old new
      | [] => True
      end /\ progress_monotone rest
  | [] => True
  end.

Definition progress_ok (w : World) : Prop :=
  (exists rest, history w = stored w :: rest) /\ progress_monotone (history w).

(** A task that will write nothing more: it has run to its end, or it has
    been asked to stop. *)
Definition dead (t : Task) : Prop :=
  task_state t = Finished \/ must_cancel t = true.

(** What the record of a job holds while its pipeline is suspended at a
    state and has not been cancelled. *)
Definition record_at (st : TaskState) (j : Job) : Prop :=
  match st with
  | NotStarted =>
      status j = PENDING /\ progress j = 0 /\ logo_url j = None /\
      video_url j = None /\ error_message j = None /\
      started_at j = None /\ completed_at j = None
  | AwaitingLogo =>
      status j = PROCESSING /\ progress j = 30 /\ logo_url j = None /\
      video_url j = None /\ error_message j = None /\ completed_at j = None
  | AwaitingVideo logo =>
      status j = PROCESSING /\ progress j = 70 /\ logo_url j = Some logo /\
      video_url j = None /\ error_message j = None /\ completed_at j = None
  | Finished => True
  end.

(** The record left by the last turn of a pipeline. *)
Definition completed_with (logo : string) (video : option string) (j : Job) : Prop :=
  status j = COMPLETED /\ progress j = 100 /\ logo_url j = Some logo /\
  video_url j = video /\ error_message j = None /\ is_Some (completed_at j).

Definition failed_with (message : string) (j : Job) : Prop :=
  status j = FAILED /\ progress j = 100 /\ logo_url j = None /\
  video_url j = None /\ error_message j = Some message /\
  is_Some (completed_at j).

(** Where a turn of an uncancelled task leaves the task ... *)
Definition next_state (st : TaskState) (generate_video : bool) (o : Outcome)
    : TaskState :=
  match st, o with
  | NotStarted, _ => AwaitingLogo
  | AwaitingLogo, Returned logo =>
      if generate_video then AwaitingVideo logo else Finished
  | AwaitingLogo, Raised _ => Finished
  | AwaitingVideo _, _ => Finished
  | Finished, _ => Finished
  end.

(** ... and its record. *)
Definition record_after (st : TaskState) (generate_video : bool) (o : Outcome)
    (j : Job) : Prop :=
  match st, o with
  | NotStarted, _ => record_at AwaitingLogo j
  | AwaitingLogo, Returned logo =>
      if generate_video then record_at (AwaitingVideo logo) j
      else completed_with logo None j
  | AwaitingLogo, Raised e => failed_with ("Logo generation failed: " +:+ e) j
  | AwaitingVideo logo, Returned video => completed_with logo (Some video) j
  | AwaitingVideo logo, Raised _ => completed_with logo None j
  | Finished, _ => True
  end.

(** The backend call a turn of a task hands to the thread pool, if any. *)
Definition call_of_turn (t : Task) (o : Outcome) : list BackendCall :=
  if must_cancel t then []
  else match task_state t, o with
       | NotStarted, _ => [generate_logo (task_prompt t)]
       | AwaitingLogo, Returned logo =>
           if task_generate_video t
           then [generate_ad_video (task_prompt t) (logo_path_of logo)]
           else []
       | _, _ => []
       end.

(** [tracked id j s0 s]: from [s0] to [s] only the record of [id] has been
    written; it is now [j], the progress log is in order, and the tasks and
    the registry entries of other ids are those of [s0]. *)
Definition tracked (id : string) (j : Job) (s0 s : Service) : Prop :=
  fst (get_job id (world s)) = Some j /\
  progress_ok (world s) /\
  (forall id', id' <> id ->
     fst (get_job id' (world s)) = fst (get_job id' (world s0))) /\
  tasks s = tasks s0 /\
  (forall id', id' <> id -> active_jobs s !! id' = active_jobs s0 !! id').

(** [untouched id s s']: from [s] to [s'] the record, the task and the
    registry entry of [id] are the same. *)
Definition untouched (id : string) (s s' : Service) : Prop :=
  fst (get_job id (world s')) = fst (get_job id (world s)) /\
  tasks s' !! id = tasks s !! id /\
  active_jobs s' !! id = active_jobs s !! id.

(** Between two turns: the record of every uncancelled task is the one its
    pipeline wrote last, and a task waits for a video only if one was
    asked for. *)
Definition records_ok (s : Service) : Prop :=
  forall id t, tasks s !! id = Some t -> live t ->
    exists j, fst (get_job id (world s)) = Some j /\
              record_at (task_state t) j /\
              (forall logo, task_state t = AwaitingVideo logo ->
                            task_generate_video t = true).

(** The job [id] is settled with record [j]: its task will write nothing
    more, the id is out of the registry, and [j] is its record. *)
Definition settled (id : string) (j : Job) (s : Service) : Prop :=
  (exists t, tasks s !! id = Some t /\ dead t) /\
  active_jobs s !! id = None /\
  fst (get_job id (world s)) = Some j.

(** A file name: a string without a slash. *)
Fixpoint no_slash (s : string) : bool :=
  match s with
  | EmptyString => true
  | String c rest => negb (Ascii.eqb c "/"%char) && no_slash rest
  end.

End JobService.

(* ================================================================== *)
(** * main.py: ConnectionManager *)
(* ================================================================== *)

Module Hub.

(** A WebSocket object, by identity. *)
Definition WebSocket : Type := nat.

(** The manager's list, with the transport under it: which sockets still
    accept a [send_text], and what has been delivered, oldest first. *)
Record Connections : Type := mkConnections {
  active_connections : list WebSocket;
  accepts            : WebSocket -> bool;
  delivered          : list (WebSocket * string)
}.

Definition H (A : Type) : Type := State Connections A.

(** How a call ends: normally, or with an exception raised by the send to a
    socket. *)
Inductive Completion : Type :=
| Normal
| SendFailed (ws : WebSocket).

(** [await connection.send_text(message)]. *)
Definition send_text (ws : WebSocket) (message : string) : H Completion :=
  fun c =>
    if accepts c ws then
      (Normal, mkConnections (active_connections c) (accepts c)
                             (delivered c ++ [(ws, message)])%list)
    else (SendFailed ws, c).

(** [connect]: [append]. *)
Definition connect (ws : WebSocket) : H unit :=
  fun c => (tt, mkConnections (active_connections c ++ [ws])%list (accepts c)
                              (delivered c)).

(** The body of [for connection in self.active_connections]: the first
    exception leaves the loop and the function. *)
Fixpoint broadcast_loop (connections : list WebSocket) (message : string)
    : H Completion :=
  match connections with
  | [] => ret Normal
  | connection :: rest =>
      do r <- send_text connection message;
      match r with
      | Normal => broadcast_loop rest message
      | SendFailed ws => ret (SendFailed ws)
      end
  end.

Definition broadcast (message : string) : H Completion :=
  fun c => broadcast_loop (active_connections c) message c.

(** [send_personal_message]. *)
Definition send_personal_message (message : string) (ws : WebSocket)
    : H Completion :=
  send_text ws message.

(** [list.remove(x)]: the list without the first occurrence of [x], or
    [None] when there is none ([ValueError]). *)
Fixpoint list_remove (ws : WebSocket) (l : list WebSocket)
    : option (list WebSocket) :=
  match l with
  | [] => None
  | x :: rest =>
      if Nat.eqb x ws then Some rest
      else cons x <$> list_remove ws rest
  end.

(** How [disconnect] ends. *)
Inductive Removal : Type :=
| Removed
| ValueError.

(** [disconnect]: [self.active_connections.remove(websocket)]. *)
Definition disconnect (ws : WebSocket) : H Removal :=
  fun c =>
    match list_remove ws (active_connections c) with
    | Some l => (Removed, mkConnections l (accepts c) (delivered c))
    | None => (ValueError, c)
    end.

End Hub.

(* ================================================================== *)
(** * main.py: the endpoints over the job manager and the hub *)
(* ================================================================== *)

Module Main.
Import JobStorage.

(** The two module-level singletons, [job_manager] and [manager]. *)
Record App : Type := mkApp {
  job_manager : JobService.Service;
  manager     : Hub.Connections
}.

(** The dictionaries handed to [json.dumps] before a broadcast. *)
Inductive Event : Type :=
| job_started (job_id prompt : string) (generate_video : bool)
| job_cancelled (job_id : string).

(** How an endpoint answers: with a body, or with an [HTTPException] (its
    [detail] text is left out). *)
Inductive Response (A : Type) : Type :=
| OK (body : A)
| HTTPException (status_code : Z).

Arguments OK {A} body.
Arguments HTTPException {A} status_code.

(** The ["summary"] of the dashboard. *)
Record Summary : Type := mkSummary {
  total      : nat;
  completed  : nat;
  pending    : nat;
  processing : nat;
  failed     : nat
}.

(** [len([j for j in jobs if j["status"] == v])]. *)
Definition count_status (st : JobStatus) (jobs : list Job) : nat :=
  length (List.filter (fun j => String.eqb (JobStatus_value (status j))
                                           (JobStatus_value st)) jobs).

(** [get_dashboard_data]: the jobs come from [get_user_jobs] with its default
    limit of 50. *)
Definition get_dashboard_data (user_id : string)
    : State App (Response (Summary * list Job)) :=
  fun app =>
    let (jobs, s) := JobService.store (get_user_jobs user_id 50) (job_manager app) in
    (OK (mkSummary (length jobs) (count_status COMPLETED jobs)
                   (count_status PENDING jobs) (count_status PROCESSING jobs)
                   (count_status FAILED jobs),
         jobs),
     mkApp s (manager app)).

Section Endpoints.

(** [json.dumps] on the event dictionaries. *)
Variable json_dumps : Event -> string.

(** [DELETE /api/job/{job_id}].  The sends of the broadcast are taken in one
    go, with no other task running in between. *)
Definition cancel_job (job_id : string) : State App (Response unit) :=
  fun app =>
    let (success, s) := JobService.cancel_job job_id (job_manager app) in
    if success then
      let (r, c) := Hub.broadcast (json_dumps (job_cancelled job_id)) (manager app) in
      match r with
      | Hub.Normal => (OK tt, mkApp s c)
      | Hub.SendFailed _ => (HTTPException 500, mkApp s c)     (* except Exception *)
      end
    else (HTTPException 404, mkApp s (manager app)).

(** [request.user_id or "default"]. *)
Definition user_or_default (user_id : option string) : string :=
  match user_id with
  | Some u => if String.eqb u "" then "default" else u
  | None => "default"
  end.

(** [POST /api/generate-ad-async]; [job_id] is the id drawn by
    [start_generation_job].  The body of the answer is the job id.  As for
    the cancel endpoint, the sends of the broadcast are taken in one go. *)
Definition generate_ad_async (job_id prompt : string) (generate_video : bool)
    (user_id : option string) : State App (Response string) :=
  fun app =>
    let (started, s) :=
      JobService.start_generation_job job_id prompt generate_video
        (user_or_default user_id) (job_manager app) in
    match started with
    | None => (HTTPException 500, mkApp s (manager app))
    | Some id =>
        let (r, c) := Hub.broadcast
                        (json_dumps (job_started id prompt generate_video))
                        (manager app) in
        match r with
        | Hub.Normal => (OK id, mkApp s c)
        | Hub.SendFailed _ => (HTTPException 500, mkApp s c)
        end
    end.

End Endpoints.

End Main.

(* ================================================================== *)
(** * Concrete states used by the examples *)
(* ================================================================== *)

Module Scenario.
Import JobStorage.

(** Readings of the wall clock, in the order they are taken. *)
Definition wall_clock (n : nat) : string :=
  nth n ["2025-06-01T12:00:00"; "2025-06-01T12:00:01"; "2025-06-01T12:00:09";
         "2025-06-01T12:00:10"; "2025-06-01T12:01:30"; "2025-06-01T12:01:31"]
      "2025-06-01T12:02:00".

(** A job that ran to completion. *)
Definition job_done : Job :=
  mkJob "job_0a1b2c3d4e5f" "a coffee shop" LOGO COMPLETED
        (Some "/output/logo_11aa22bb.png") None None
        "2025-06-01T11:00:00" (Some "2025-06-01T11:00:02")
        (Some "2025-06-01T11:00:40") 100 "default".

(** A job whose logo has been produced and whose video is being made. *)
Definition job_running : Job :=
  mkJob "job_99887766554f" "a bike repair shop" BOTH PROCESSING
        (Some "/output/logo_33cc44dd.png") None None
        "2025-06-01T11:58:00" (Some "2025-06-01T11:58:20")
        None 70 "default".

(** The service at start-up, with no [jobs.json] yet. *)
Definition s_boot : JobService.Service :=
  JobService.mkService (mkWorld None wall_clock 0 [[]]) ∅ ∅ [].

(** A request has been accepted: the job is Pending, its task not started. *)
Definition s_started : JobService.Service :=
  snd (JobService.start_generation_job "job_5e6f7a8b9c0d" "a bakery" true
         "default" s_boot).

(** The task has run up to the logo call. *)
Definition s_awaiting_logo : JobService.Service :=
  snd (JobService.resume_task "job_5e6f7a8b9c0d"
         (JobService.mkTask "a bakery" true JobService.NotStarted false)
         (JobService.Raised "") s_started).

(** The logo has arrived; the video call is under way. *)
Definition s_awaiting_video : JobService.Service :=
  snd (JobService.resume_task "job_5e6f7a8b9c0d"
         (JobService.mkTask "a bakery" true JobService.AwaitingLogo false)
         (JobService.Returned "/output/logo_77aa88bb.png") s_awaiting_logo).

(** The video has arrived; the job is Completed. *)
Definition s_completed : JobService.Service :=
  snd (JobService.resume_task "job_5e6f7a8b9c0d"
         (JobService.mkTask "a bakery" true
            (JobService.AwaitingVideo "/output/logo_77aa88bb.png") false)
         (JobService.Returned "/output/video_99cc00dd.mp4") s_awaiting_video).

Definition w_done : World := mkWorld (Some [job_done]) wall_clock 0 [[job_done]].

Definition w_two : World :=
  mkWorld (Some [job_running; job_done]) wall_clock 0 [[job_running; job_done]].

(** Three observers; the connection of the second one is closed. *)
Definition hub_three : Hub.Connections :=
  Hub.mkConnections [1; 2; 3]%nat (fun ws => negb (Nat.eqb ws 2)) [].

(** Three observers, all connected. *)
Definition hub_open : Hub.Connections :=
  Hub.mkConnections [1; 2; 3]%nat (fun _ => true) [].

(** A stand-in for [json.dumps] on the two events. *)
Definition event_text (e : Main.Event) : string :=
  match e with
  | Main.job_started id _ _ => "job_started " +:+ id
  | Main.job_cancelled id => "job_cancelled " +:+ id
  end.

(** The application while a job waits for its logo, with all observers
    connected, and with one of them gone. *)
Definition app_open : Main.App := Main.mkApp s_awaiting_logo hub_open.

Definition app_one_closed : Main.App := Main.mkApp s_awaiting_logo hub_three.

(** The job is cancelled while its logo, or its video, is being made. *)
Definition s_cancelled_during_logo : JobService.Service :=
  snd (JobService.cancel_job "job_5e6f7a8b9c0d" s_awaiting_logo).

Definition s_cancelled_during_video : JobService.Service :=
  snd (JobService.cancel_job "job_5e6f7a8b9c0d" s_awaiting_video).

(** A second job is accepted before the task of the first has run. *)
Definition s_two_pending : JobService.Service :=
  snd (JobService.start_generation_job "job_1a2b3c4d5e6f" "a tea house" false
         "ann" s_started).

(** A second job is accepted while the first waits for its logo; the first
    job is then no longer the head record. *)
Definition s_two_jobs : JobService.Service :=
  snd (JobService.start_generation_job "job_1a2b3c4d5e6f" "a tea house" false
         "ann" s_awaiting_logo).

End Scenario.

(* ================================================================== *)
(** * The store: facts about [job_storage.py] *)
(* ================================================================== *)

Section StoreFacts.
Import JobStorage.

Implicit Types (w : World) (jobs : list Job) (id : string) (j : Job).

Lemma has_id_true id j : has_id id j = true <-> job_id j = id.
Proof. unfold has_id. apply String.eqb_eq. Qed.

Lemma has_id_false id j : has_id id j = false <-> job_id j <> id.
Proof. unfold has_id. apply String.eqb_neq. Qed.

(** The search loop answers [-1] exactly for the ids that are not stored. *)
Lemma find_job_index_None id jobs :
  find_job_index id jobs = None <-> id ∉ job_ids jobs.
Proof.
  induction jobs as [|j rest IH]; simpl.
  - split; [intros _; apply not_elem_of_nil | reflexivity].
  - rewrite not_elem_of_cons.
    destruct (String.eqb (job_id j) id) eqn:E.
    + apply String.eqb_eq in E. split; [discriminate | intros [Hne _]; congruence].
    + apply String.eqb_neq in E.
      destruct (find_job_index id rest) as [i|]; simpl;
        split; try discriminate; try tauto.
      * intros [_ Hn]. apply IH in Hn. discriminate.
      * intros _. split; [congruence | now apply IH].
Qed.

(** The index found is that of the first job with the id. *)
Lemma find_job_index_Some id jobs i :
  find_job_index id jobs = Some i ->
  exists j, jobs !! i = Some j /\ job_id j = id /\
            List.find (has_id id) jobs = Some j /\
            forall k j', (k < i)%nat -> jobs !! k = Some j' -> job_id j' <> id.
Proof.
  revert i. induction jobs as [|j rest IH]; intros i; simpl; [discriminate|].
  unfold has_id at 1.
  destruct (String.eqb (job_id j) id) eqn:E.
  - intros [= <-]. exists j. apply String.eqb_eq in E.
    repeat split; auto. intros k j' Hk. lia.
  - destruct (find_job_index id rest) as [i'|] eqn:F; simpl; [|discriminate].
    intros [= <-]. destruct (IH i' eq_refl) as (j0 & Hl & Hid & Hf & Hmin).
    exists j0. repeat split; auto.
    intros [|k] j' Hk; simpl.
    + intros [= <-]. now apply String.eqb_neq.
    + apply Hmin. lia.
Qed.

Lemma find_has_id_None id jobs :
  List.find (has_id id) jobs = None <-> find_job_index id jobs = None.
Proof.
  induction jobs as [|j rest IH]; simpl; [tauto|].
  unfold has_id at 1.
  destruct (String.eqb (job_id j) id); [split; discriminate|].
  rewrite IH. destruct (find_job_index id rest); simpl; split; congruence.
Qed.

(** [get_job] reads the file and leaves the world as it is. *)
Lemma get_job_stored id w :
  get_job id w = (List.find (has_id id) (stored w), w).
Proof. reflexivity. Qed.

(** Every job [get_job] answers is found by the search of
    [update_job_status], at the position of that very job. *)
Lemma get_job_found id w j :
  fst (get_job id w) = Some j ->
  exists i, find_job_index id (stored w) = Some i /\ stored w !! i = Some j.
Proof.
  rewrite get_job_stored. simpl. intros Hf.
  destruct (find_job_index id (stored w)) as [i|] eqn:F.
  - exists i. split; [reflexivity|].
    destruct (find_job_index_Some _ _ _ F) as (j0 & Hl & _ & Hf' & _). congruence.
  - apply find_has_id_None in F. congruence.
Qed.

(** Replacing a job by one of the same id does not move the first match. *)
Lemma find_insert_same_id id jobs i j j' :
  find_job_index id jobs = Some i -> jobs !! i = Some j ->
  job_id j' = id ->
  List.find (has_id id) (<[i := j']> jobs) = Some j'.
Proof.
  revert i. induction jobs as [|a rest IH]; intros i; simpl; [discriminate|].
  destruct (String.eqb (job_id a) id) eqn:E.
  - intros [= <-] _ Hid. simpl. apply has_id_true in Hid. now rewrite Hid.
  - destruct (find_job_index id rest) as [i'|] eqn:F; simpl; [|discriminate].
    intros [= <-] Hl Hid. simpl. unfold has_id at 1. rewrite E. now apply IH.
Qed.

(** ... and does not change what is found for another id. *)
Lemma find_insert_other_id id id' jobs i j j' :
  jobs !! i = Some j -> job_id j = id -> job_id j' = id -> id' <> id ->
  List.find (has_id id') (<[i := j']> jobs) = List.find (has_id id') jobs.
Proof.
  revert i. induction jobs as [|a rest IH]; intros i; [reflexivity|].
  destruct i as [|i]; simpl.
  - intros [= ->] Hj Hj' Hne.
    assert (has_id id' j = false) as -> by (apply has_id_false; congruence).
    assert (has_id id' j' = false) as -> by (apply has_id_false; congruence).
    reflexivity.
  - intros Hl Hj Hj' Hne. destruct (has_id id' a); [reflexivity|]. eauto.
Qed.

Lemma job_ids_insert_same_id jobs i j j' :
  jobs !! i = Some j -> job_id j' = job_id j ->
  job_ids (<[i := j']> jobs) = job_ids jobs.
Proof.
  revert i. induction jobs as [|a rest IH]; intros i; [reflexivity|].
  destruct i as [|i]; simpl.
  - intros [= ->] ->. reflexivity.
  - intros Hl Hid. f_equal. now apply IH.
Qed.

(** No assignment of [update_job_status] touches the five keys fixed at
    creation. *)
Lemma updated_job_fixed_keys st p l v e w j :
  let j' := updated_job st p l v e w j in
  job_id j' = job_id j /\ prompt j' = prompt j /\ job_type j' = job_type j /\
  created_at j' = created_at j /\ user_id j' = user_id j.
Proof. destruct st, p, l, v, e; cbn; auto. Qed.

Lemma updated_job_status st p l v e w j :
  status (updated_job st p l v e w j) = st.
Proof. destruct st, p, l, v, e; reflexivity. Qed.

(** What one call of [update_job_status] does when the id is stored: the
    first job with the id is replaced, in place, and the file is saved. *)
Lemma update_job_status_found id st p l v e w i j :
  find_job_index id (stored w) = Some i -> stored w !! i = Some j ->
  let r := update_job_status id st p l v e w in
  fst r = true /\
  stored (snd r) = <[i := updated_job st p l v e w j]> (stored w) /\
  history (snd r) = stored (snd r) :: history w /\
  clock (snd r) = clock w.
Proof.
  intros Hi Hj. unfold update_job_status, bind, load_jobs, stored in *.
  simpl in *. rewrite Hi, Hj. unfold updated_job.
  destruct st; simpl; auto.
Qed.

(** ... and when it is not: nothing is written. *)
Lemma update_job_status_missing id st p l v e w :
  find_job_index id (stored w) = None ->
  update_job_status id st p l v e w = (false, w).
Proof.
  intros Hi. unfold update_job_status, bind, load_jobs, stored in *.
  simpl in *. now rewrite Hi.
Qed.

(** After an update, [get_job] answers the rewritten job. *)
Lemma update_job_status_get id st p l v e w j :
  fst (get_job id w) = Some j ->
  fst (get_job id (snd (update_job_status id st p l v e w)))
    = Some (updated_job st p l v e w j).
Proof.
  intros Hget.
  destruct (get_job_found _ _ _ Hget) as (i & Hi & Hj).
  destruct (update_job_status_found id st p l v e w i j Hi Hj) as (_ & Hst & _).
  destruct (find_job_index_Some _ _ _ Hi) as (j0 & Hl & Hid & _).
  assert (j0 = j) as -> by congruence.
  pose proof (updated_job_fixed_keys st p l v e w j) as (K1 & _).
  rewrite get_job_stored. cbn [fst]. rewrite Hst.
  eapply find_insert_same_id; eauto. congruence.
Qed.

End StoreFacts.

(* ================================================================== *)
(** * Properties of the store *)
(* ================================================================== *)

Section StoreProperties.
Import JobStorage Scenario.

Implicit Types (w : World) (jobs : list Job) (id : string) (j : Job).

(** C2, as stated, fails: [update_job_status] has no guard on
    [completed_at].  A Completed job with [completed_at] set is put back to
    Processing by a later call, and its progress is overwritten. *)
Lemma C2_completed_job_is_rewritten :
  fst (get_job "job_0a1b2c3d4e5f" w_done) = Some job_done /\
  completed_at job_done = Some "2025-06-01T11:00:40" /\
  let w' := snd (update_job_status "job_0a1b2c3d4e5f" PROCESSING (Some 30)
                   None None None w_done) in
  exists j', fst (get_job "job_0a1b2c3d4e5f" w') = Some j' /\
             j' <> job_done /\
             status j' = PROCESSING /\ progress j' = 30.
Proof.
  split; [reflexivity|]. split; [reflexivity|].
  eexists. split; [vm_compute; reflexivity|].
  split; [discriminate|]. split; reflexivity.
Qed.

(** C2, amended.  A call of [update_job_status] on a job whose
    [completed_at] is set is carried out like any other: it answers [True],
    the stored status becomes the status given, every optional argument that
    is given overwrites its field, [completed_at] stays set, and the keys
    [job_id], [prompt], [job_type], [created_at] and [user_id] keep their
    values. *)
Theorem C2_update_after_completion id st p l v e w j :
  fst (get_job id w) = Some j ->
  is_Some (completed_at j) ->
  let r := update_job_status id st p l v e w in
  fst r = true /\
  exists j', fst (get_job id (snd r)) = Some j' /\
    status j' = st /\
    (forall x, p = Some x -> progress j' = x) /\
    (forall x, l = Some x -> logo_url j' = Some x) /\
    (forall x, v = Some x -> video_url j' = Some x) /\
    (forall x, e = Some x -> error_message j' = Some x) /\
    is_Some (completed_at j') /\
    job_id j' = job_id j /\ prompt j' = prompt j /\ job_type j' = job_type j /\
    created_at j' = created_at j /\ user_id j' = user_id j.
Proof.
  intros Hget Hdone r.
  destruct (get_job_found _ _ _ Hget) as (i & Hi & Hj).
  destruct (update_job_status_found id st p l v e w i j Hi Hj) as (Hok & Hst & _).
  fold r in Hok, Hst. split; [exact Hok|].
  destruct (find_job_index_Some _ _ _ Hi) as (j0 & Hl & Hid & _).
  assert (j0 = j) as -> by congruence.
  pose proof (updated_job_fixed_keys st p l v e w j) as (K1 & K2 & K3 & K4 & K5).
  exists (updated_job st p l v e w j).
  split.
  { rewrite get_job_stored. simpl. rewrite Hst.
    eapply find_insert_same_id; eauto. congruence. }
  split; [apply updated_job_status|].
  destruct Hdone as [c Hc].
  repeat split; auto.
  - intros x ->. destruct st, l, v, e; reflexivity.
  - intros x ->. destruct st, p, v, e; reflexivity.
  - intros x ->. destruct st, p, l, e; reflexivity.
  - intros x ->. destruct st, p, l, v; reflexivity.
  - destruct st, p, l, v, e; cbn; rewrite ?Hc; eauto.
Qed.

Lemma C2_update_after_completion_witness :
  let r := update_job_status "job_0a1b2c3d4e5f" FAILED None None None
             (Some "late write") w_done in
  fst r = true /\
  exists j', fst (get_job "job_0a1b2c3d4e5f" (snd r)) = Some j' /\
    status j' = FAILED /\
    (forall x, @None Z = Some x -> progress j' = x) /\
    (forall x, @None string = Some x -> logo_url j' = Some x) /\
    (forall x, @None string = Some x -> video_url j' = Some x) /\
    (forall x, Some "late write" = Some x -> error_message j' = Some x) /\
    is_Some (completed_at j') /\
    job_id j' = job_id job_done /\ prompt j' = prompt job_done /\
    job_type j' = job_type job_done /\
    created_at j' = created_at job_done /\ user_id j' = user_id job_done.
Proof.
  apply (C2_update_after_completion "job_0a1b2c3d4e5f" FAILED None None None
           (Some "late write") w_done job_done).
  - reflexivity.
  - exists "2025-06-01T11:00:40". reflexivity.
Defined.

(** Every call with status Processing stamps [started_at] with the time of
    the call, whatever the field held. *)
Lemma processing_stamps_started_at id p l v e w j :
  fst (get_job id w) = Some j ->
  exists j',
    fst (get_job id (snd (update_job_status id PROCESSING p l v e w))) = Some j' /\
    started_at j' = Some (clock w (readings w)).
Proof.
  intros Hget.
  destruct (get_job_found _ _ _ Hget) as (i & Hi & Hj).
  destruct (update_job_status_found id PROCESSING p l v e w i j Hi Hj)
    as (_ & Hst & _).
  destruct (find_job_index_Some _ _ _ Hi) as (j0 & Hl & Hid & _).
  assert (j0 = j) as -> by congruence.
  pose proof (updated_job_fixed_keys PROCESSING p l v e w j) as (K1 & _).
  exists (updated_job PROCESSING p l v e w j). split.
  - rewrite get_job_stored. simpl. rewrite Hst.
    eapply find_insert_same_id; eauto. congruence.
  - destruct p, l, v, e; reflexivity.
Qed.

(** C5: the code at a job that is already in Processing with [started_at]
    set.  A further update with status Processing replaces the stamp by the
    time of that call. *)
Theorem C5_started_at_is_restamped :
  fst (get_job "job_99887766554f" w_two) = Some job_running /\
  started_at job_running = Some "2025-06-01T11:58:20" /\
  exists j',
    fst (get_job "job_99887766554f"
           (snd (update_job_status "job_99887766554f" PROCESSING (Some 90)
                   None None None w_two))) = Some j' /\
    started_at j' = Some "2025-06-01T12:00:00" /\
    started_at j' <> started_at job_running.
Proof.
  split; [reflexivity|]. split; [reflexivity|].
  eexists. split; [vm_compute; reflexivity|].
  split; [reflexivity | discriminate].
Qed.

(** The same in the service's own run: the first update of the pipeline
    stamps [started_at], and each later Processing update (progress 30, 60,
    70) stamps it again, so that a job waiting for its video carries the
    time of the progress-70 update. *)
Lemma pipeline_restamps_started_at :
  (exists j, fst (get_job "job_5e6f7a8b9c0d"
                    (snd (update_job_status "job_5e6f7a8b9c0d" PROCESSING
                            (Some 10) None None None
                            (JobService.world s_started)))) = Some j /\
             started_at j = Some "2025-06-01T12:00:01") /\
  (exists j, fst (get_job "job_5e6f7a8b9c0d"
                    (JobService.world s_awaiting_video)) = Some j /\
             started_at j = Some "2025-06-01T12:01:30").
Proof.
  split; eexists; (split; [vm_compute; reflexivity | reflexivity]).
Qed.

(** C6, as stated, fails: [delete_job] answers what [save_jobs] answers, so an
    id that is not stored gets [True]. *)
Lemma C6_delete_unknown_answers_true :
  ("job_ffffffffffff" ∉ job_ids (stored w_done)) /\
  fst (delete_job "job_ffffffffffff" w_done) = true.
Proof.
  split; [|reflexivity].
  intros H. apply list_elem_of_In in H. simpl in H. destruct H as [H|[]].
  discriminate.
Qed.

Lemma filter_other_ids id jobs :
  id ∉ job_ids jobs ->
  List.filter (fun job => negb (String.eqb (job_id job) id)) jobs = jobs.
Proof.
  induction jobs as [|j rest IH]; simpl; [reflexivity|].
  rewrite not_elem_of_cons. intros [Hne Hrest].
  assert (String.eqb (job_id j) id = false) as ->
    by (apply String.eqb_neq; congruence).
  simpl. f_equal. now apply IH.
Qed.

(** C6, amended.  For every id not present in the store, [delete_job]
    answers [True] and saves the collection it has read: the persisted
    collection is unchanged. *)
Theorem C6_delete_unknown id w :
  id ∉ job_ids (stored w) ->
  fst (delete_job id w) = true /\
  stored (snd (delete_job id w)) = stored w /\
  jobs_file (snd (delete_job id w)) = Some (stored w).
Proof.
  intros Hid. unfold delete_job, bind, load_jobs, save_jobs, stored in *.
  simpl in *. rewrite (filter_other_ids _ _ Hid). auto.
Qed.

Lemma C6_delete_unknown_witness :
  fst (delete_job "job_ffffffffffff" w_two) = true /\
  stored (snd (delete_job "job_ffffffffffff" w_two)) = stored w_two /\
  jobs_file (snd (delete_job "job_ffffffffffff" w_two)) = Some (stored w_two).
Proof.
  apply (C6_delete_unknown "job_ffffffffffff" w_two).
  intros H. apply list_elem_of_In in H. simpl in H.
  destruct H as [H|[H|[]]]; discriminate.
Defined.

(** C9, as stated, fails for [progress]: with status Failed (or Completed)
    and no progress given, the stored progress is set to 100. *)
Lemma C9_absent_progress_is_overwritten :
  fst (get_job "job_99887766554f" w_two) = Some job_running /\
  progress job_running = 70 /\
  exists j',
    fst (get_job "job_99887766554f"
           (snd (update_job_status "job_99887766554f" FAILED None None None
                   (Some "Job cancelled by user") w_two))) = Some j' /\
    progress j' = 100.
Proof.
  split; [reflexivity|]. split; [reflexivity|].
  eexists. split; [vm_compute; reflexivity | reflexivity].
Qed.

(** C9, amended.  For every [update_job_status] call: each of [logo_url],
    [video_url], [error_message] that is absent leaves its field at its
    previous value; an absent [progress] leaves the stored progress at its
    previous value when the status given is Pending or Processing, and sets
    it to 100 when the status given is Completed or Failed; the records of
    every other job id stay where they are, unchanged, and no record is
    added or removed. *)
Theorem C9_update_frame id st p l v e w :
  let w' := snd (update_job_status id st p l v e w) in
  (forall k j, stored w !! k = Some j -> job_id j <> id ->
               stored w' !! k = Some j) /\
  length (stored w') = length (stored w) /\
  (forall j, fst (get_job id w) = Some j ->
     exists j', fst (get_job id w') = Some j' /\
       (l = None -> logo_url j' = logo_url j) /\
       (v = None -> video_url j' = video_url j) /\
       (e = None -> error_message j' = error_message j) /\
       (p = None -> progress j' = match st with
                                  | COMPLETED | FAILED => 100
                                  | PENDING | PROCESSING => progress j
                                  end)).
Proof.
  intros w'. destruct (find_job_index id (stored w)) as [i|] eqn:Hi.
  - destruct (find_job_index_Some _ _ _ Hi) as (j0 & Hl & Hid & Hf & _).
    destruct (update_job_status_found id st p l v e w i j0 Hi Hl) as (_ & Hst & _).
    fold w' in Hst. rewrite Hst. split; [|split].
    + intros k j Hk Hne. rewrite list_lookup_insert_ne; [exact Hk|].
      intros ->. congruence.
    + apply length_insert.
    + intros j Hget. rewrite get_job_stored in Hget. simpl in Hget.
      assert (j = j0) as -> by congruence.
      pose proof (updated_job_fixed_keys st p l v e w j0) as (K1 & _).
      exists (updated_job st p l v e w j0). split.
      { rewrite get_job_stored. simpl. rewrite Hst.
        eapply find_insert_same_id; eauto. congruence. }
      repeat split; intros ->.
      * destruct st, p, v, e; reflexivity.
      * destruct st, p, l, e; reflexivity.
      * destruct st, p, l, v; reflexivity.
      * destruct st, l, v, e; reflexivity.
  - unfold w'. rewrite (update_job_status_missing _ _ _ _ _ _ _ Hi). simpl.
    split; [auto|]. split; [reflexivity|].
    intros j Hget. apply get_job_found in Hget as (i & Hi' & _). congruence.
Qed.

Lemma C9_update_frame_witness :
  let w' := snd (update_job_status "job_99887766554f" PROCESSING None None
                   (Some "/output/video_55ee66ff.mp4") None w_two) in
  (forall k j, stored w_two !! k = Some j -> job_id j <> "job_99887766554f" ->
               stored w' !! k = Some j) /\
  length (stored w') = length (stored w_two) /\
  (forall j, fst (get_job "job_99887766554f" w_two) = Some j ->
     exists j', fst (get_job "job_99887766554f" w') = Some j' /\
       (@None string = None -> logo_url j' = logo_url j) /\
       (Some "/output/video_55ee66ff.mp4" = None -> video_url j' = video_url j) /\
       (@None string = None -> error_message j' = error_message j) /\
       (@None Z = None -> progress j' = progress j)).
Proof.
  exact (C9_update_frame "job_99887766554f" PROCESSING None None
           (Some "/output/video_55ee66ff.mp4") None w_two).
Defined.

(** C10.  [create_job] does not check the id: when the id is already stored
    the call still answers [True], the new Pending job is put in front of
    the jobs that were there (which are all kept, so the id now names at
    least two records), and [get_job] answers the new job. *)
Theorem C10_create_job_duplicate_id id prompt ty user w :
  id ∈ job_ids (stored w) ->
  let new_job := mkJob id prompt ty PENDING None None None
                       (clock w (readings w)) None None 0 user in
  let w' := snd (create_job id prompt ty user w) in
  fst (create_job id prompt ty user w) = true /\
  stored w' = new_job :: stored w /\
  (2 <= length (List.filter (has_id id) (stored w')))%nat /\
  fst (get_job id w') = Some new_job.
Proof.
  intros Hin new_job w'.
  assert (Hst : stored w' = new_job :: stored w) by reflexivity.
  split; [reflexivity|]. split; [exact Hst|]. split.
  - rewrite Hst. cbn [List.filter]. unfold has_id at 1. cbn [job_id new_job].
    rewrite String.eqb_refl. cbn [length]. apply le_n_S.
    destruct (List.filter (has_id id) (stored w)) as [|x xs] eqn:F; simpl; [|lia].
    exfalso. apply list_elem_of_In, in_map_iff in Hin as (j & Hid & Hj).
    assert (In j (List.filter (has_id id) (stored w))) as Hf
      by (apply filter_In; split; [exact Hj | now apply has_id_true]).
    rewrite F in Hf. exact Hf.
  - rewrite get_job_stored. cbn [fst]. rewrite Hst. cbn [List.find].
    unfold has_id at 1. cbn [job_id new_job]. now rewrite String.eqb_refl.
Qed.

Lemma C10_create_job_duplicate_id_witness :
  let new_job := mkJob "job_0a1b2c3d4e5f" "a tea house" BOTH PENDING None None
                       None "2025-06-01T12:00:00" None None 0 "ann" in
  let w' := snd (create_job "job_0a1b2c3d4e5f" "a tea house" BOTH "ann" w_done) in
  fst (create_job "job_0a1b2c3d4e5f" "a tea house" BOTH "ann" w_done) = true /\
  stored w' = [new_job; job_done] /\
  (2 <= length (List.filter (has_id "job_0a1b2c3d4e5f") (stored w')))%nat /\
  fst (get_job "job_0a1b2c3d4e5f" w') = Some new_job.
Proof.
  apply (C10_create_job_duplicate_id "job_0a1b2c3d4e5f" "a tea house" BOTH "ann"
           w_done).
  apply list_elem_of_In. simpl. left. reflexivity.
Defined.

End StoreProperties.

(* ================================================================== *)
(** * Properties of the notification hub *)
(* ================================================================== *)

Section HubProperties.
Import Hub Scenario.

Implicit Types (c : Connections) (message : string) (ws : WebSocket).

(** The loop over a list of connections: it delivers to the connections in
    front of the first one that refuses, and stops there with the exception;
    the manager's list is not touched. *)
Lemma broadcast_loop_prefix connections message c :
  let r := broadcast_loop connections message c in
  active_connections (snd r) = active_connections c /\
  accepts (snd r) = accepts c /\
  exists pre,
    delivered (snd r) = (delivered c ++ map (fun ws => (ws, message)) pre)%list /\
    Forall (fun ws => accepts c ws = true) pre /\
    match fst r with
    | Normal => connections = pre
    | SendFailed ws =>
        accepts c ws = false /\ exists post, connections = (pre ++ ws :: post)%list
    end.
Proof.
  revert c. induction connections as [|x rest IH]; intros c; cbn.
  - repeat split. exists []. cbn. rewrite app_nil_r. repeat split. constructor.
  - unfold bind, send_text. destruct (accepts c x) eqn:Hx.
    + set (c1 := mkConnections _ _ _).
      destruct (IH c1) as (Ha & Hacc & pre & Hd & Hpre & Hr).
      split; [exact Ha|]. split; [exact Hacc|].
      exists (x :: pre). split; [|split].
      * rewrite Hd. subst c1. cbn. now rewrite <- app_assoc.
      * constructor; [exact Hx | exact Hpre].
      * destruct (fst (broadcast_loop rest message c1)) as [|ws].
        -- now subst.
        -- destruct Hr as (Hws & post & ->). split; [exact Hws|]. now exists post.
    + cbn. repeat split. exists []. cbn. rewrite app_nil_r.
      repeat split; [constructor | exact Hx | now exists rest].
Qed.

(** C3, as stated, fails.  With three observers of which the second is
    closed, the send to the second raises out of [broadcast]: the third
    observer, whose connection is open, is not served, and the second is
    still registered afterwards. *)
Lemma C3_failure_aborts_broadcast :
  let r := broadcast "job_started" hub_three in
  fst r = SendFailed 2%nat /\
  (3%nat ∈ active_connections hub_three) /\ accepts hub_three 3%nat = true /\
  ((3%nat, "job_started") ∉ delivered (snd r)) /\
  delivered (snd r) = [(1%nat, "job_started")] /\
  accepts hub_three 2%nat = false /\
  (2%nat ∈ active_connections (snd r)).
Proof.
  cbn. repeat split.
  - apply list_elem_of_In. cbn. auto.
  - intros H. apply list_elem_of_In in H. cbn in H.
    destruct H as [H|[]]. discriminate.
  - apply list_elem_of_In. cbn. auto.
Qed.

(** C3, amended.  A broadcast goes through the registered observers in
    order and ends at the first delivery that fails: the observers in front
    of the failing one have been served, the failing one and those behind it
    have not, the exception reaches the caller, and the observer set is
    what it was - no observer is removed.  When no delivery fails every
    registered observer is served. *)
Theorem C3_broadcast_stops_at_first_failure message c :
  let r := broadcast message c in
  active_connections (snd r) = active_connections c /\
  exists served,
    delivered (snd r)
      = (delivered c ++ map (fun ws => (ws, message)) served)%list /\
    Forall (fun ws => accepts c ws = true) served /\
    match fst r with
    | Normal => active_connections c = served
    | SendFailed ws =>
        accepts c ws = false /\
        exists behind, active_connections c = (served ++ ws :: behind)%list
    end.
Proof.
  unfold broadcast.
  destruct (broadcast_loop_prefix (active_connections c) message c)
    as (Ha & _ & pre & Hd & Hpre & Hr).
  split; [exact Ha|]. exists pre. auto.
Qed.

End HubProperties.

(* ================================================================== *)
(** * The job service as a whole: an invariant of the event loop *)
(* ================================================================== *)

Section ServiceInvariant.
Import JobStorage JobService Scenario.

Implicit Types (w : World) (s : Service) (jobs : list Job) (id : string).

Lemma forward_refl a : forward a a.
Proof. now left. Qed.

Lemma forward_trans a b c : forward a b -> forward b c -> forward a c.
Proof. unfold forward. intros [->|H1] [->|H2]; auto. right. lia. Qed.

(** A final status has nothing in front of it. *)
Lemma forward_terminal a b : forward a b -> terminal a -> b = a.
Proof.
  intros [->|Hlt] Ht; [reflexivity|].
  destruct Ht as [-> | ->], b; cbn in Hlt; lia.
Qed.

Lemma advances_refl jobs : advances jobs jobs.
Proof. intros id a Ha. exists a. split; [exact Ha | apply forward_refl]. Qed.

Lemma advances_trans j1 j2 j3 :
  advances j1 j2 -> advances j2 j3 -> advances j1 j3.
Proof.
  intros H12 H23 id a Ha.
  destruct (H12 _ _ Ha) as (b & Hb & Fab).
  destruct (H23 _ _ Hb) as (c & Hc & Fbc).
  exists c. split; [exact Hc | eapply forward_trans; eauto].
Qed.

(** In a monotone log the newest entry advances on every entry. *)
Lemma monotone_head new rest k old :
  monotone (new :: rest) -> (new :: rest) !! k = Some old -> advances old new.
Proof.
  revert new k. induction rest as [|y rest IH]; intros new k Hm Hk.
  - destruct k as [|k]; [|discriminate]. injection Hk as <-. apply advances_refl.
  - destruct k as [|k].
    + injection Hk as <-. apply advances_refl.
    + destruct Hm as [Hyx Hm]. eapply advances_trans; [|exact Hyx].
      eapply IH; eauto.
Qed.

Lemma monotone_lookup log i k old new :
  monotone log -> (i <= k)%nat ->
  log !! i = Some new -> log !! k = Some old -> advances old new.
Proof.
  revert i k. induction log as [|x log IH]; intros i k Hm Hik Hi Hk;
    [discriminate|].
  destruct i as [|i].
  - injection Hi as <-. eapply monotone_head; eauto.
  - destruct k as [|k]; [lia|]. destruct Hm as [_ Hm].
    eapply (IH i k); eauto. lia.
Qed.

(** With ids unique, a record is the one found under its id. *)
Lemma find_unique jobs r :
  NoDup (job_ids jobs) -> r ∈ jobs -> List.find (has_id (job_id r)) jobs = Some r.
Proof.
  induction jobs as [|j rest IH]; intros Hnd Hin.
  - now apply elem_of_nil in Hin.
  - cbn in Hnd. apply NoDup_cons in Hnd as [Hj Hnd].
    apply elem_of_cons in Hin as [<- | Hin]; cbn.
    + unfold has_id. now rewrite String.eqb_refl.
    + destruct (has_id (job_id r) j) eqn:E; [|now apply IH].
      apply has_id_true in E. exfalso. apply Hj. rewrite E.
      apply list_elem_of_fmap. now exists r.
Qed.

Lemma find_elem id jobs r :
  List.find (has_id id) jobs = Some r -> r ∈ jobs /\ job_id r = id.
Proof.
  intros H. apply find_some in H as [Hin Hid].
  split; [now apply list_elem_of_In | now apply has_id_true].
Qed.

Lemma status_in_Some jobs id a :
  status_in jobs id = Some a <->
  exists r, List.find (has_id id) jobs = Some r /\ status r = a.
Proof.
  unfold status_in. destruct (List.find (has_id id) jobs) as [r|]; cbn.
  - split; [intros [= <-]; eauto | intros (r' & [= <-] & <-); reflexivity].
  - split; [discriminate | intros (r' & H & _); discriminate].
Qed.

Lemma well_formed_unique w : well_formed w -> NoDup (job_ids (stored w)).
Proof.
  intros [(rest & Hh) Hu _]. rewrite Hh in Hu. now apply Forall_cons in Hu as [Hu _].
Qed.

(** One [update_job_status] that moves a job forward keeps the store well
    formed and leaves the other ids alone. *)
Lemma update_keeps_well_formed id st p l v e w a :
  well_formed w -> status_in (stored w) id = Some a -> forward a st ->
  let w' := snd (update_job_status id st p l v e w) in
  well_formed w' /\
  status_in (stored w') id = Some st /\
  (forall id', id' <> id -> status_in (stored w') id' = status_in (stored w) id').
Proof.
  intros Hwf Ha Hf w'.
  apply status_in_Some in Ha as (j & Hfind & Hst).
  assert (Hget : fst (get_job id w) = Some j) by (now rewrite get_job_stored).
  destruct (get_job_found _ _ _ Hget) as (i & Hi & Hj).
  destruct (update_job_status_found id st p l v e w i j Hi Hj) as (_ & Hs & Hh & _).
  fold w' in Hs, Hh.
  destruct (find_elem _ _ _ Hfind) as [_ Hid].
  pose proof (updated_job_fixed_keys st p l v e w j) as (K1 & _).
  assert (Hsame : status_in (stored w') id = Some st).
  { unfold status_in. rewrite Hs.
    erewrite find_insert_same_id; eauto; [|congruence].
    cbn. now rewrite updated_job_status. }
  assert (Hother : forall id', id' <> id ->
            status_in (stored w') id' = status_in (stored w) id').
  { intros id' Hne. unfold status_in. rewrite Hs.
    erewrite find_insert_other_id; eauto. congruence. }
  split; [|split; assumption].
  pose proof (well_formed_unique _ Hwf) as Hnd.
  destruct Hwf as [(rest & Hrest) Hu Hm].
  constructor.
  - exists (history w). exact Hh.
  - rewrite Hh. constructor; [|exact Hu].
    rewrite Hs. erewrite job_ids_insert_same_id; eauto.
  - rewrite Hh. cbn [monotone]. split; [rewrite Hrest | exact Hm].
    intros id0 a0 H0. destruct (String.eqb_spec id0 id) as [->|Hne].
    + exists st. split; [exact Hsame|].
      apply status_in_Some in H0 as (j0 & Hf0 & <-).
      assert (j0 = j) as -> by congruence. now rewrite Hst.
    + exists a0. rewrite Hother by exact Hne. split; [exact H0 | apply forward_refl].
Qed.

(** [create_job] under an id that is not stored keeps the store well formed:
    the new job is Pending and the others are as they were. *)
Lemma create_keeps_well_formed id prompt ty user w :
  well_formed w -> id ∉ job_ids (stored w) ->
  let w' := snd (create_job id prompt ty user w) in
  fst (create_job id prompt ty user w) = true /\
  well_formed w' /\
  status_in (stored w') id = Some PENDING /\
  (forall id', id' <> id -> status_in (stored w') id' = status_in (stored w) id').
Proof.
  intros Hwf Hfresh w'.
  set (new_job := mkJob id prompt ty PENDING None None None
                        (clock w (readings w)) None None 0 user).
  assert (Hs : stored w' = new_job :: stored w) by reflexivity.
  assert (Hh : history w' = stored w' :: history w) by reflexivity.
  assert (Hother : forall id', id' <> id ->
            status_in (stored w') id' = status_in (stored w) id').
  { intros id' Hne. unfold status_in. rewrite Hs. cbn [List.find].
    assert (has_id id' new_job = false) as ->; [|reflexivity].
    apply has_id_false. cbn. congruence. }
  split; [reflexivity|]. split; [|split; [|exact Hother]].
  - pose proof (well_formed_unique _ Hwf) as Hnd.
    destruct Hwf as [(rest & Hrest) Hu Hm]. constructor.
    + exists (history w). exact Hh.
    + rewrite Hh. constructor; [|exact Hu].
      rewrite Hs. cbn. apply NoDup_cons. split; assumption.
    + rewrite Hh. cbn [monotone]. split; [rewrite Hrest | exact Hm].
      intros id0 a0 H0. exists a0. split; [|apply forward_refl].
      rewrite Hother; [exact H0|]. intros ->.
      apply status_in_Some in H0 as (r & Hr & _).
      apply find_elem in Hr as [Hin Hid]. apply Hfresh.
      rewrite <- Hid. apply list_elem_of_fmap. now exists r.
  - unfold status_in. rewrite Hs. cbn [List.find].
    assert (has_id id new_job = true) as -> by (now apply has_id_true).
    reflexivity.
Qed.

(** Running a sequence: the continuation gets the answer and the state of
    the first part. *)
Lemma bind_run {S A B} (m : State S A) (k : A -> State S B) (s : S) :
  bind m k s = k (fst (m s)) (snd (m s)).
Proof. unfold bind. now destruct (m s). Qed.

(** A call into the store changes the world and nothing else. *)
Lemma store_run {A} (m : M A) s :
  store m s = (fst (m (world s)),
               mkService (snd (m (world s))) (active_jobs s) (tasks s)
                         (backend_calls s)).
Proof. unfold store. now destruct (m (world s)). Qed.

Lemma touches_only_init id a s :
  well_formed (world s) -> status_in (stored (world s)) id = Some a ->
  touches_only id a s s.
Proof. intros Hwf Ha. unfold touches_only. auto 10. Qed.

Lemma touches_only_update id st p l v e s0 s a :
  touches_only id a s0 s -> forward a st ->
  let s' := snd (store (update_job_status id st p l v e) s) in
  touches_only id st s0 s' /\ active_jobs s' = active_jobs s.
Proof.
  intros (Hwf & Ha & Ho & Ht & Hact) Hf s'.
  unfold s'. rewrite store_run. cbn [snd world active_jobs tasks].
  destruct (update_keeps_well_formed id st p l v e (world s) a Hwf Ha Hf)
    as (Hwf' & Hst & Ho').
  split; [|reflexivity]. unfold touches_only. cbn [world active_jobs tasks].
  split; [exact Hwf'|]. split; [exact Hst|].
  split; [|split; [exact Ht | exact Hact]].
  intros id' Hne. rewrite Ho' by exact Hne. now apply Ho.
Qed.

Lemma touches_only_executor id a s0 s c :
  touches_only id a s0 s -> touches_only id a s0 (snd (run_in_executor c s)).
Proof. intros H. exact H. Qed.

Lemma touches_only_clean_up id a s0 s :
  touches_only id a s0 s ->
  let s' := snd (finally_clean_up id s) in
  touches_only id a s0 s' /\ active_jobs s' !! id = None.
Proof.
  intros (Hwf & Ha & Ho & Ht & Hact). cbn. split; [|apply lookup_delete_eq].
  unfold touches_only. cbn [world active_jobs tasks].
  split; [exact Hwf|]. split; [exact Ha|]. split; [exact Ho|].
  split; [exact Ht|]. intros id' Hne.
  rewrite lookup_delete_ne by congruence. now apply Hact.
Qed.

(** The first segment of the pipeline takes a Pending job to Processing. *)
Lemma start_segment s id prompt :
  well_formed (world s) -> status_in (stored (world s)) id = Some PENDING ->
  let r := process_job_start id prompt s in
  fst r = AwaitingLogo /\ touches_only id PROCESSING s (snd r) /\
  active_jobs (snd r) !! id = active_jobs s !! id.
Proof.
  intros Hwf Ha. unfold process_job_start. rewrite !bind_run. cbn [ret fst snd].
  pose proof (touches_only_init _ _ _ Hwf Ha) as H0.
  eapply (touches_only_update _ PROCESSING (Some 10) None None None) in H0
    as [H1 E1]; [|right; cbn; lia].
  eapply (touches_only_update _ PROCESSING (Some 30) None None None) in H1
    as [H2 E2]; [|apply forward_refl].
  split; [reflexivity|]. split.
  - now apply touches_only_executor.
  - cbn [run_in_executor snd active_jobs]. now rewrite E2, E1.
Qed.

(** The last update and the [finally] clause. *)
Lemma completed_segment s0 s id logo video :
  touches_only id PROCESSING s0 s ->
  let r := mark_completed id logo video s in
  fst r = Finished /\ touches_only id COMPLETED s0 (snd r) /\
  active_jobs (snd r) !! id = None.
Proof.
  intros H0. unfold mark_completed. rewrite !bind_run. cbn [ret fst snd].
  eapply (touches_only_update _ COMPLETED (Some 100) (Some logo) video None)
    in H0 as [H1 _]; [|right; cbn; lia].
  apply touches_only_clean_up in H1 as [H2 Hnone].
  split; [reflexivity|]. split; assumption.
Qed.

(** The segment that follows the logo call; the call was not cancelled. *)
Lemma logo_segment s id prompt generate_video o :
  well_formed (world s) -> status_in (stored (world s)) id = Some PROCESSING ->
  let r := process_job_logo_done id prompt generate_video (Result o) s in
  exists b, touches_only id b s (snd r) /\
    (fst r = Finished /\ active_jobs (snd r) !! id = None \/
     fst r <> Finished /\ b = status_at (fst r) /\
     active_jobs (snd r) !! id = active_jobs s !! id).
Proof.
  intros Hwf Ha. pose proof (touches_only_init _ _ _ Hwf Ha) as H0.
  destruct o as [logo | cause]; cbn [process_job_logo_done].
  - rewrite bind_run.
    eapply (touches_only_update _ PROCESSING (Some 60) (Some logo) None None)
      in H0 as [H1 E1]; [|apply forward_refl].
    destruct generate_video.
    + rewrite !bind_run. cbn [ret fst snd].
      eapply (touches_only_update _ PROCESSING (Some 70) None None None)
        in H1 as [H2 E2]; [|apply forward_refl].
      exists PROCESSING. split; [now apply touches_only_executor|].
      right. split; [discriminate|]. split; [reflexivity|].
      cbn [run_in_executor snd active_jobs]. now rewrite E2, E1.
    + destruct (completed_segment _ _ id logo None H1) as (Hfin & H2 & Hnone).
      exists COMPLETED. split; [exact H2|]. left. split; assumption.
  - rewrite !bind_run. cbn [ret fst snd].
    eapply (touches_only_update _ FAILED None None None
              (Some ("Logo generation failed: " +:+ cause)))
      in H0 as [H1 _]; [|right; cbn; lia].
    apply touches_only_clean_up in H1 as [H2 Hnone].
    exists FAILED. split; [exact H2|]. left. split; [reflexivity | exact Hnone].
Qed.

(** The segment that follows the video call; the call was not cancelled. *)
Lemma video_segment s id logo o :
  well_formed (world s) -> status_in (stored (world s)) id = Some PROCESSING ->
  let r := process_job_video_done id logo (Result o) s in
  fst r = Finished /\ touches_only id COMPLETED s (snd r) /\
  active_jobs (snd r) !! id = None.
Proof.
  intros Hwf Ha. pose proof (touches_only_init _ _ _ Hwf Ha) as H0.
  destruct o as [video | cause]; cbn [process_job_video_done].
  - rewrite bind_run.
    eapply (touches_only_update _ PROCESSING (Some 90) (Some logo) (Some video) None)
      in H0 as [H1 _]; [|apply forward_refl].
    now apply completed_segment.
  - now apply completed_segment.
Qed.

(** Putting a task back after a segment that wrote only to its own job. *)
Lemma suspend_keeps_consistent s s1 id t st :
  consistent s -> tasks s !! id = Some t ->
  well_formed (world s1) ->
  (forall id', id' <> id ->
     status_in (stored (world s1)) id' = status_in (stored (world s)) id') ->
  tasks s1 = tasks s ->
  (forall id', id' <> id -> active_jobs s1 !! id' = active_jobs s !! id') ->
  (st = Finished /\ active_jobs s1 !! id = None \/
   st <> Finished /\ is_Some (active_jobs s1 !! id) /\
   status_in (stored (world s1)) id = Some (status_at st)) ->
  consistent (snd (set_task id (mkTask (task_prompt t) (task_generate_video t)
                                       st false) s1)).
Proof.
  intros [Hwf Hlr Hrl] Ht F1 F2 F3 F4 F5.
  constructor; unfold set_task; cbn [snd world active_jobs tasks].
  - exact F1.
  - intros id' t' Hl Hlive. destruct (decide (id' = id)) as [->|Hne].
    + rewrite lookup_insert_eq in Hl. injection Hl as <-.
      destruct F5 as [[-> _] | (Hst & Hact & Hstat)].
      * destruct Hlive as [Hl1 _]. now cbn in Hl1.
      * cbn. split; assumption.
    + rewrite lookup_insert_ne in Hl by congruence. rewrite F3 in Hl.
      destruct (Hlr _ _ Hl Hlive) as [Ha Hs].
      rewrite F4, F2 by assumption. split; assumption.
  - intros id' info Ha. destruct (decide (id' = id)) as [->|Hne].
    + destruct F5 as [[_ Hn] | (Hst & _ & _)]; [congruence|].
      eexists. rewrite lookup_insert_eq. split; [reflexivity|].
      split; [exact Hst | reflexivity].
    + rewrite F4 in Ha by assumption.
      destruct (Hrl _ _ Ha) as (t' & Ht' & Hlive). exists t'.
      rewrite lookup_insert_ne by congruence. rewrite F3. split; assumption.
Qed.

(** A turn of a task keeps the service consistent. *)
Lemma resume_keeps_consistent s id t o :
  consistent s -> tasks s !! id = Some t -> task_state t <> Finished ->
  consistent (snd (resume_task id t o s)).
Proof.
  intros Hc Ht Hnf. unfold resume_task. rewrite bind_run.
  pose proof Hc as [Hwf Hlr Hrl].
  destruct (must_cancel t) eqn:Hmc.
  - (* the task was cancelled: it writes nothing *)
    assert (Hnone : active_jobs s !! id = None).
    { destruct (active_jobs s !! id) as [info|] eqn:Ha; [|reflexivity].
      destruct (Hrl _ _ Ha) as (t' & Ht' & _ & Hm). congruence. }
    destruct (task_state t) eqn:Hst; [| | |congruence];
      (eapply suspend_keeps_consistent;
       [ exact Hc | exact Ht | exact Hwf
       | intros id' Hne; reflexivity
       | reflexivity
       | intros id' Hne; cbn; now rewrite ?lookup_delete_ne by congruence
       | left; split; [reflexivity | cbn; rewrite ?lookup_delete_eq; auto] ]).
  - assert (Hlive : live t) by (split; assumption).
    destruct (Hlr _ _ Ht Hlive) as [Hact Hstat].
    destruct (task_state t) as [| |logo|] eqn:Hst; [| | |congruence];
      cbn [status_at] in Hstat.
    + destruct (start_segment s id (task_prompt t) Hwf Hstat)
        as (Hfst & (F1 & Hb & F2 & F3 & F4) & Hsame).
      rewrite Hfst. eapply suspend_keeps_consistent; eauto.
      right. split; [discriminate|]. rewrite Hsame. split; assumption.
    + destruct (logo_segment s id (task_prompt t) (task_generate_video t) o
                  Hwf Hstat) as (b & (F1 & Hb & F2 & F3 & F4) & Hend).
      eapply suspend_keeps_consistent; eauto.
      destruct Hend as [[Hfin Hnone] | (Hnf' & -> & Hsame)].
      * left. split; assumption.
      * right. split; [exact Hnf'|]. rewrite Hsame. split; assumption.
    + destruct (video_segment s id logo o Hwf Hstat)
        as (Hfst & (F1 & Hb & F2 & F3 & F4) & Hnone).
      rewrite Hfst. eapply suspend_keeps_consistent; eauto.
Qed.

(** What [cancel_job] does to a job of the registry. *)
Lemma cancel_job_active s id info :
  active_jobs s !! id = Some info ->
  cancel_job id s =
    (true,
     mkService
       (snd (update_job_status id FAILED None None None
               (Some "Job cancelled by user") (world s)))
       (delete id (active_jobs s)) (alter task_cancel id (tasks s))
       (backend_calls s)).
Proof.
  intros Ha. unfold cancel_job. rewrite Ha, bind_run, store_run. reflexivity.
Qed.

Lemma cancel_job_inactive s id :
  active_jobs s !! id = None -> cancel_job id s = (false, s).
Proof. intros Ha. unfold cancel_job. now rewrite Ha. Qed.

Lemma task_cancel_not_live t : ~ live (task_cancel t).
Proof.
  unfold task_cancel, live. destruct (task_state t) eqn:E; cbn; rewrite ?E;
    intros [H1 H2]; congruence.
Qed.

(** Serving a cancel request keeps the service consistent. *)
Lemma cancel_keeps_consistent s id :
  consistent s -> consistent (snd (cancel_job id s)).
Proof.
  intros Hc. destruct (active_jobs s !! id) as [info|] eqn:Ha.
  - rewrite (cancel_job_active _ _ _ Ha). cbn [snd].
    destruct Hc as [Hwf Hlr Hrl].
    destruct (Hrl _ _ Ha) as (t & Ht & Hlive).
    destruct (Hlr _ _ Ht Hlive) as [_ Hstat].
    assert (Hfw : forward (status_at (task_state t)) FAILED)
      by (right; destruct (task_state t); cbn; lia).
    destruct (update_keeps_well_formed id FAILED None None None
                (Some "Job cancelled by user") (world s) _ Hwf Hstat Hfw)
      as (Hwf' & _ & Hother).
    constructor; cbn [world active_jobs tasks].
    + exact Hwf'.
    + intros id' t' Ht' Hlive'. destruct (decide (id' = id)) as [->|Hne].
      * rewrite lookup_alter_eq, Ht in Ht'. injection Ht' as <-.
        now apply task_cancel_not_live in Hlive'.
      * rewrite lookup_alter_ne in Ht' by congruence.
        rewrite lookup_delete_ne by congruence. rewrite Hother by exact Hne.
        now apply Hlr.
    + intros id' info' Ha'. destruct (decide (id' = id)) as [->|Hne].
      * now rewrite lookup_delete_eq in Ha'.
      * rewrite lookup_delete_ne in Ha' by congruence.
        rewrite lookup_alter_ne by congruence. now apply (Hrl _ info').
  - now rewrite (cancel_job_inactive _ _ Ha).
Qed.

(** Where [start_generation_job] leaves the service. *)
Lemma start_generation_job_state s id prompt generate_video user :
  start_generation_job id prompt generate_video user s =
    (Some id,
     mkService
       (snd (create_job id prompt (if generate_video then BOTH else LOGO) user
               (world s)))
       (<[id := mkJobInfo prompt generate_video user]> (active_jobs s))
       (<[id := mkTask prompt generate_video NotStarted false]> (tasks s))
       (backend_calls s)).
Proof. reflexivity. Qed.

(** Accepting a request under a fresh id keeps the service consistent. *)
Lemma start_keeps_consistent s id prompt generate_video user :
  consistent s -> id ∉ job_ids (stored (world s)) -> tasks s !! id = None ->
  consistent (snd (start_generation_job id prompt generate_video user s)).
Proof.
  intros [Hwf Hlr Hrl] Hfresh Hnone.
  rewrite start_generation_job_state. cbn [snd].
  destruct (create_keeps_well_formed id prompt
              (if generate_video then BOTH else LOGO) user (world s) Hwf Hfresh)
    as (_ & Hwf' & Hpending & Hother).
  constructor; cbn [world active_jobs tasks].
  - exact Hwf'.
  - intros id' t' Ht' Hlive'. destruct (decide (id' = id)) as [->|Hne].
    + rewrite lookup_insert_eq in Ht'. injection Ht' as <-.
      rewrite lookup_insert_eq. split; [eauto | exact Hpending].
    + rewrite lookup_insert_ne in Ht' by congruence.
      rewrite lookup_insert_ne by congruence. rewrite Hother by exact Hne.
      now apply Hlr.
  - intros id' info' Ha'. destruct (decide (id' = id)) as [->|Hne].
    + eexists. rewrite lookup_insert_eq. split; [reflexivity|].
      split; [discriminate | reflexivity].
    + rewrite lookup_insert_ne in Ha' by congruence.
      rewrite lookup_insert_ne by congruence. now apply (Hrl _ info').
Qed.

Lemma initial_consistent s : initial s -> consistent s.
Proof.
  intros (Ha & Ht & _ & Hnd & Hh). constructor.
  - constructor.
    + exists []. exact Hh.
    + rewrite Hh. constructor; [exact Hnd | constructor].
    + rewrite Hh. cbn. auto.
  - intros id t. rewrite Ht, lookup_empty. discriminate.
  - intros id info. rewrite Ha, lookup_empty. discriminate.
Qed.

Lemma step_keeps_consistent s s' : consistent s -> step s s' -> consistent s'.
Proof.
  intros Hc Hstep. destruct Hstep.
  - now apply start_keeps_consistent.
  - now apply resume_keeps_consistent.
  - now apply cancel_keeps_consistent.
Qed.

(** Every state the service reaches is consistent. *)
Lemma reachable_consistent s : reachable s -> consistent s.
Proof.
  induction 1 as [s Hi | s s' _ IH Hstep].
  - now apply initial_consistent.
  - eapply step_keeps_consistent; eauto.
Qed.

(** The states of the example run are reached by the service. *)
Lemma s_boot_reachable : reachable s_boot.
Proof.
  apply reachable_initial. repeat split; try reflexivity. constructor.
Qed.

Lemma s_started_reachable : reachable s_started.
Proof.
  eapply reachable_step; [exact s_boot_reachable|].
  apply step_start; [apply not_elem_of_nil | reflexivity].
Qed.

Lemma s_awaiting_logo_reachable : reachable s_awaiting_logo.
Proof.
  eapply reachable_step; [exact s_started_reachable|].
  apply step_resume; [vm_compute; reflexivity | discriminate].
Qed.

Lemma s_awaiting_video_reachable : reachable s_awaiting_video.
Proof.
  eapply reachable_step; [exact s_awaiting_logo_reachable|].
  apply step_resume; [vm_compute; reflexivity | discriminate].
Qed.

Lemma s_completed_reachable : reachable s_completed.
Proof.
  eapply reachable_step; [exact s_awaiting_video_reachable|].
  apply step_resume; [vm_compute; reflexivity | discriminate].
Qed.

(** C1.  In every state the service reaches, take any two collections it
    has persisted, [old] written no later than [new].  Every job record of
    [old] has a record in [new] with the same id whose status is the same or
    further along Pending, Processing, Completed/Failed; and a record that
    was Completed or Failed in [old] has that very status in [new]. *)
Theorem C1_status_only_moves_forward s (m n : nat) (old new : list Job) (r : Job) :
  reachable s ->
  (m <= n)%nat ->
  timeline s !! m = Some old ->
  timeline s !! n = Some new ->
  r ∈ old ->
  exists r', r' ∈ new /\ job_id r' = job_id r /\
             forward (status r) (status r') /\
             (terminal (status r) -> status r' = status r).
Proof.
  intros Hreach Hmn Hold Hnew Hr.
  apply reachable_consistent in Hreach as [[_ Hu Hm] _ _].
  unfold timeline in Hold, Hnew.
  apply reverse_lookup_Some in Hold as [Hold Hlm].
  apply reverse_lookup_Some in Hnew as [Hnew Hln].
  assert (Hadv : advances old new).
  { eapply (monotone_lookup _ _ _ old new Hm); [|exact Hnew | exact Hold]. lia. }
  assert (Hnd : NoDup (job_ids old)).
  { rewrite Forall_lookup in Hu. exact (Hu _ _ Hold). }
  assert (Hs : status_in old (job_id r) = Some (status r)).
  { unfold status_in. now rewrite (find_unique _ _ Hnd Hr). }
  destruct (Hadv _ _ Hs) as (b & Hb & Hf).
  apply status_in_Some in Hb as (r' & Hfind & <-).
  apply find_elem in Hfind as [Hin Hid].
  exists r'. repeat split; auto.
  intros Ht. now apply forward_terminal.
Qed.

Lemma C1_status_only_moves_forward_witness :
  exists r', r' ∈ stored (world s_completed) /\
             job_id r' = "job_5e6f7a8b9c0d" /\
             forward PENDING (status r') /\
             (terminal PENDING -> status r' = PENDING).
Proof.
  apply (C1_status_only_moves_forward s_completed 1 7
           (stored (world s_started)) (stored (world s_completed))
           (mkJob "job_5e6f7a8b9c0d" "a bakery" BOTH PENDING None None None
                  "2025-06-01T12:00:00" None None 0 "default")).
  - exact s_completed_reachable.
  - lia.
  - vm_compute. reflexivity.
  - vm_compute. reflexivity.
  - vm_compute. apply list_elem_of_here.
Defined.

(** C4, as stated, fails on the message.  A job that is being processed is
    cancelled: its record becomes Failed, and the error message is
    ["Job cancelled by user"], not ["cancelled"]. *)
Lemma C4_cancel_message_differs :
  reachable s_awaiting_logo /\
  is_Some (active_jobs s_awaiting_logo !! "job_5e6f7a8b9c0d") /\
  let r := cancel_job "job_5e6f7a8b9c0d" s_awaiting_logo in
  fst r = true /\
  exists j, fst (get_job "job_5e6f7a8b9c0d" (world (snd r))) = Some j /\
            status j = FAILED /\
            error_message j = Some "Job cancelled by user" /\
            error_message j <> Some "cancelled".
Proof.
  split; [exact s_awaiting_logo_reachable|].
  split; [vm_compute; eauto|].
  split; [vm_compute; reflexivity|].
  eexists. split; [vm_compute; reflexivity|].
  split; [reflexivity|]. split; [reflexivity | discriminate].
Qed.

(** C4, amended.  In every state the service reaches, for every job id
    present in the active registry, [cancel_job] answers [True], removes the
    id from the registry, marks the job's task for cancellation, and the
    persisted record of the job becomes Failed with the error message
    exactly ["Job cancelled by user"]. *)
Theorem C4_cancel_active_job s id info :
  reachable s ->
  active_jobs s !! id = Some info ->
  let r := cancel_job id s in
  fst r = true /\
  active_jobs (snd r) !! id = None /\
  (exists t, tasks (snd r) !! id = Some t /\ must_cancel t = true) /\
  exists j, fst (get_job id (world (snd r))) = Some j /\
            status j = FAILED /\
            error_message j = Some "Job cancelled by user".
Proof.
  intros Hreach Ha r.
  apply reachable_consistent in Hreach as [Hwf Hlr Hrl].
  destruct (Hrl _ _ Ha) as (t & Ht & Hlive).
  destruct (Hlr _ _ Ht Hlive) as [_ Hstat].
  apply status_in_Some in Hstat as (j & Hfind & _).
  unfold r. rewrite (cancel_job_active _ _ _ Ha). cbn [fst snd world active_jobs tasks].
  split; [reflexivity|]. split; [apply lookup_delete_eq|]. split.
  - exists (task_cancel t). rewrite lookup_alter_eq, Ht. split; [reflexivity|].
    destruct Hlive as [Hnf _]. unfold task_cancel.
    destruct (task_state t); [reflexivity..|congruence].
  - exists (updated_job FAILED None None None (Some "Job cancelled by user")
              (world s) j).
    split; [|split; reflexivity].
    apply update_job_status_get. now rewrite get_job_stored.
Qed.

Lemma C4_cancel_active_job_witness :
  let r := cancel_job "job_5e6f7a8b9c0d" s_awaiting_video in
  fst r = true /\
  active_jobs (snd r) !! "job_5e6f7a8b9c0d" = None /\
  (exists t, tasks (snd r) !! "job_5e6f7a8b9c0d" = Some t /\ must_cancel t = true) /\
  exists j, fst (get_job "job_5e6f7a8b9c0d" (world (snd r))) = Some j /\
            status j = FAILED /\
            error_message j = Some "Job cancelled by user".
Proof.
  apply (C4_cancel_active_job s_awaiting_video "job_5e6f7a8b9c0d"
           (mkJobInfo "a bakery" true "default")).
  - exact s_awaiting_video_reachable.
  - vm_compute. reflexivity.
Defined.

End ServiceInvariant.

(* ================================================================== *)
(** * More of the store: creation, deletion and the two listings *)
(* ================================================================== *)

Section StoreOperations.
Import JobStorage Scenario.

Implicit Types (w : World) (jobs : list Job) (id : string) (j : Job).

Lemma create_job_get id prompt ty user w :
  fst (get_job id (snd (create_job id prompt ty user w)))
  = Some (mkJob id prompt ty PENDING None None None (clock w (readings w))
                None None 0 user).
Proof.
  rewrite get_job_stored. cbn [fst].
  change (stored (snd (create_job id prompt ty user w)))
    with (mkJob id prompt ty PENDING None None None (clock w (readings w))
                None None 0 user :: stored w).
  cbn [List.find]. unfold has_id at 1. cbn [job_id].
  now rewrite String.eqb_refl.
Qed.

(** X1.  After [create_job], [get_job] on the same id answers the new job:
    Pending, progress 0, no URL, no error, created at the time of the call;
    what [get_job] answers for any other id is unchanged. *)
Theorem create_then_get id prompt ty user w :
  let w' := snd (create_job id prompt ty user w) in
  fst (get_job id w')
    = Some (mkJob id prompt ty PENDING None None None (clock w (readings w))
                  None None 0 user) /\
  forall id', id' <> id -> fst (get_job id' w') = fst (get_job id' w).
Proof.
  intros w'.
  assert (Hs : stored w' =
            mkJob id prompt ty PENDING None None None (clock w (readings w))
                  None None 0 user :: stored w) by reflexivity.
  split; [apply create_job_get|].
  intros id' Hne. rewrite !get_job_stored. cbn [fst]. rewrite Hs.
  cbn [List.find].
  assert (has_id id' (mkJob id prompt ty PENDING None None None
                        (clock w (readings w)) None None 0 user) = false)
    as -> by (apply has_id_false; cbn; congruence).
  reflexivity.
Qed.

Lemma create_then_get_witness :
  let w' := snd (create_job "job_5e6f7a8b9c0d" "a bakery" BOTH "default" w_two) in
  fst (get_job "job_5e6f7a8b9c0d" w')
    = Some (mkJob "job_5e6f7a8b9c0d" "a bakery" BOTH PENDING None None None
                  "2025-06-01T12:00:00" None None 0 "default") /\
  forall id', id' <> "job_5e6f7a8b9c0d" ->
              fst (get_job id' w') = fst (get_job id' w_two).
Proof.
  exact (create_then_get "job_5e6f7a8b9c0d" "a bakery" BOTH "default" w_two).
Defined.

Lemma find_filter_other id id' jobs :
  id' <> id ->
  List.find (has_id id')
    (List.filter (fun job => negb (String.eqb (job_id job) id)) jobs)
  = List.find (has_id id') jobs.
Proof.
  intros Hne. induction jobs as [|j rest IH]; [reflexivity|]. cbn.
  destruct (String.eqb_spec (job_id j) id) as [E|E]; cbn.
  - assert (has_id id' j = false) as -> by (apply has_id_false; congruence).
    exact IH.
  - destruct (has_id id' j); [reflexivity | exact IH].
Qed.

Lemma filter_drops_id id jobs :
  id ∉ job_ids (List.filter (fun job => negb (String.eqb (job_id job) id)) jobs).
Proof.
  induction jobs as [|j rest IH]; cbn; [apply not_elem_of_nil|].
  destruct (String.eqb_spec (job_id j) id) as [E|E]; cbn; [exact IH|].
  apply not_elem_of_cons. split; [congruence | exact IH].
Qed.

(** X2.  [delete_job] answers [True] and removes every record of the id:
    the id is no longer stored, [get_job] answers [None] for it, and answers
    what it answered before for every other id. *)
Theorem delete_then_get id w :
  let w' := snd (delete_job id w) in
  fst (delete_job id w) = true /\
  (id ∉ job_ids (stored w')) /\
  fst (get_job id w') = None /\
  forall id', id' <> id -> fst (get_job id' w') = fst (get_job id' w).
Proof.
  intros w'.
  assert (Hs : stored w' =
            List.filter (fun job => negb (String.eqb (job_id job) id)) (stored w))
    by reflexivity.
  split; [reflexivity|]. split; [rewrite Hs; apply filter_drops_id|]. split.
  - rewrite get_job_stored. cbn [fst]. apply find_has_id_None.
    apply find_job_index_None. rewrite Hs. apply filter_drops_id.
  - intros id' Hne. rewrite !get_job_stored. cbn [fst]. rewrite Hs.
    now apply find_filter_other.
Qed.

Lemma delete_then_get_witness :
  let w' := snd (delete_job "job_99887766554f" w_two) in
  fst (delete_job "job_99887766554f" w_two) = true /\
  ("job_99887766554f" ∉ job_ids (stored w')) /\
  fst (get_job "job_99887766554f" w') = None /\
  forall id', id' <> "job_99887766554f" ->
              fst (get_job id' w') = fst (get_job id' w_two).
Proof.
  exact (delete_then_get "job_99887766554f" w_two).
Defined.

(** X3.  Creating a job under an id that is not stored and deleting it again
    gives back the collection as it was. *)
Theorem create_delete_round_trip id prompt ty user w :
  id ∉ job_ids (stored w) ->
  stored (snd (delete_job id (snd (create_job id prompt ty user w)))) = stored w.
Proof.
  intros Hfresh.
  change (stored (snd (delete_job id (snd (create_job id prompt ty user w)))))
    with (List.filter (fun job => negb (String.eqb (job_id job) id))
            (mkJob id prompt ty PENDING None None None (clock w (readings w))
                   None None 0 user :: stored w)).
  cbn [List.filter job_id]. rewrite String.eqb_refl. cbn [negb].
  now apply filter_other_ids.
Qed.

Lemma create_delete_round_trip_witness :
  stored (snd (delete_job "job_5e6f7a8b9c0d"
                 (snd (create_job "job_5e6f7a8b9c0d" "a bakery" LOGO "default"
                         w_two)))) = stored w_two.
Proof.
  apply (create_delete_round_trip "job_5e6f7a8b9c0d" "a bakery" LOGO "default"
           w_two).
  intros H. apply list_elem_of_In in H. simpl in H.
  destruct H as [H|[H|[]]]; discriminate.
Defined.

(** The loop of [get_user_jobs] with the matches collected so far: while
    fewer than [max 1 limit] are collected it goes on, and it stops right
    after the append that reaches that number. *)
Lemma user_jobs_loop_take user limit jobs acc :
  (length acc < Z.to_nat (Z.max 1 limit))%nat ->
  user_jobs_loop user limit jobs acc
  = (acc ++ take (Z.to_nat (Z.max 1 limit) - length acc)
                 (List.filter (fun j => String.eqb (user_id j) user) jobs))%list.
Proof.
  revert acc. induction jobs as [|j rest IH]; intros acc Hlen; cbn.
  - now rewrite take_nil, app_nil_r.
  - destruct (String.eqb (user_id j) user); [|now apply IH].
    rewrite length_app. cbn [length].
    replace (Z.to_nat (Z.max 1 limit) - length acc)%nat
      with (S (Z.to_nat (Z.max 1 limit) - S (length acc)))%nat by lia.
    cbn [take]. destruct (Z.leb_spec limit (Z.of_nat (length acc + 1))) as [Hle|Hgt].
    + replace (Z.to_nat (Z.max 1 limit) - S (length acc))%nat with 0%nat by lia.
      now rewrite take_0.
    + rewrite IH by (rewrite length_app; cbn [length]; lia).
      rewrite length_app. cbn [length]. rewrite <- app_assoc. cbn.
      do 3 f_equal. lia.
Qed.

(** X4.  [get_user_jobs] answers the first [max(1, limit)] jobs of the user,
    in store order, and does not touch the file.  The bound is tested after
    a job has been appended, so a limit of zero or less still lets the
    user's first job through. *)
Theorem get_user_jobs_spec user limit w :
  get_user_jobs user limit w
  = (take (Z.to_nat (Z.max 1 limit))
          (List.filter (fun j => String.eqb (user_id j) user) (stored w)),
     w).
Proof.
  unfold get_user_jobs, bind, ret, load_jobs, stored. cbn [fst].
  rewrite user_jobs_loop_take by (cbn [length]; lia).
  cbn [length app]. now rewrite Nat.sub_0_r.
Qed.

(** X5.  [update_job_status] on an id that is not stored answers [False] and
    does nothing at all: the file is not written and the clock is not
    read. *)
Theorem update_unknown_id id st p l v e w :
  id ∉ job_ids (stored w) ->
  update_job_status id st p l v e w = (false, w).
Proof.
  intros Hid. apply update_job_status_missing. now apply find_job_index_None.
Qed.

Lemma update_unknown_id_witness :
  update_job_status "job_ffffffffffff" COMPLETED (Some 100)
    (Some "/output/logo_11aa22bb.png") None None w_two = (false, w_two).
Proof.
  apply (update_unknown_id "job_ffffffffffff" COMPLETED (Some 100)
           (Some "/output/logo_11aa22bb.png") None None w_two).
  intros H. apply list_elem_of_In in H. simpl in H.
  destruct H as [H|[H|[]]]; discriminate.
Defined.

Lemma update_job_status_ids id st p l v e w :
  job_ids (stored (snd (update_job_status id st p l v e w))) = job_ids (stored w).
Proof.
  destruct (find_job_index id (stored w)) as [i|] eqn:Hi.
  - destruct (find_job_index_Some _ _ _ Hi) as (j & Hl & Hid & _).
    destruct (update_job_status_found id st p l v e w i j Hi Hl) as (_ & Hs & _).
    rewrite Hs. eapply job_ids_insert_same_id; eauto.
    apply updated_job_fixed_keys.
  - now rewrite (update_job_status_missing _ _ _ _ _ _ _ Hi).
Qed.

(** X6.  Whatever its arguments, [update_job_status] keeps the ids of the
    stored jobs, in their order: it never adds, removes, moves or renames a
    record; in particular the number of stored jobs is unchanged. *)
Theorem update_keeps_ids id st p l v e w :
  let w' := snd (update_job_status id st p l v e w) in
  job_ids (stored w') = job_ids (stored w) /\
  length (stored w') = length (stored w).
Proof.
  intros w'. pose proof (update_job_status_ids id st p l v e w) as H.
  split; [exact H|].
  apply (f_equal length) in H. unfold job_ids in H.
  now rewrite !length_map in H.
Qed.

(** X7.  The time stamps of a stored job after [update_job_status], with
    [now] the time of the call: [created_at] is never changed; [started_at]
    becomes [now] when the status given is Processing and is left alone
    otherwise; [completed_at] becomes [now] when the status given is
    Completed or Failed and is left alone otherwise. *)
Theorem update_time_stamps id st p l v e w j :
  fst (get_job id w) = Some j ->
  let now := clock w (readings w) in
  exists j', fst (get_job id (snd (update_job_status id st p l v e w))) = Some j' /\
    created_at j' = created_at j /\
    started_at j' = match st with
                    | PROCESSING => Some now
                    | _ => started_at j
                    end /\
    completed_at j' = match st with
                      | COMPLETED | FAILED => Some now
                      | _ => completed_at j
                      end.
Proof.
  intros Hget now. exists (updated_job st p l v e w j).
  split; [now apply update_job_status_get|].
  destruct st, p, l, v, e; cbn; auto.
Qed.

Lemma update_time_stamps_witness :
  exists j', fst (get_job "job_99887766554f"
                    (snd (update_job_status "job_99887766554f" COMPLETED
                            (Some 100) None None None w_two))) = Some j' /\
    created_at j' = "2025-06-01T11:58:00" /\
    started_at j' = Some "2025-06-01T11:58:20" /\
    completed_at j' = Some "2025-06-01T12:00:00".
Proof.
  apply (update_time_stamps "job_99887766554f" COMPLETED (Some 100) None None
           None w_two job_running).
  reflexivity.
Defined.

End StoreOperations.

(* ================================================================== *)
(** * More of the job manager: the pipeline for every outcome, cancelling *)
(* ================================================================== *)

Section ManagerOperations.
Import JobStorage JobService Scenario.

Implicit Types (s : Service) (id : string).

Ltac run_job :=
  unfold _process_job, process_job_start, process_job_logo_done,
    process_job_video_done, mark_completed, start_generation_job, resume_task,
    cancel_job, store, run_in_executor, finally_clean_up, set_task,
    update_job_status, create_job, add_timestamps, get_job, load_jobs,
    save_jobs, datetime_now, bind, ret;
  repeat (cbn; rewrite ?String.eqb_refl, ?lookup_insert_eq, ?lookup_delete_eq).

(** X10.  Clean-up: when a job is started under an id that is not in the
    registry, the registry is, after the pipeline has run, exactly what it
    was before the job was started - whatever the backends did. *)
Theorem pipeline_restores_registry s id prompt generate_video user logo_result
    video_result :
  active_jobs s !! id = None ->
  let s1 := snd (start_generation_job id prompt generate_video user s) in
  let s2 := snd (_process_job id prompt generate_video logo_result video_result s1) in
  active_jobs s1 !! id = Some (mkJobInfo prompt generate_video user) /\
  get_active_jobs_count s1 = S (get_active_jobs_count s) /\
  active_jobs s2 = active_jobs s /\
  get_active_jobs_count s2 = get_active_jobs_count s.
Proof.
  intros Hnone. destruct s as [[f clk n h] a t b]. cbn in Hnone.
  assert (Hdel : delete id (<[id := mkJobInfo prompt generate_video user]> a) = a)
    by (rewrite delete_insert_eq; now apply delete_id).
  destruct logo_result as [logo|cause], generate_video,
    video_result as [video|cause']; run_job; unfold get_active_jobs_count; cbn;
    rewrite ?Hdel; repeat split; auto; now apply map_size_insert_None.
Qed.

Lemma pipeline_restores_registry_witness :
  let s1 := snd (start_generation_job "job_5e6f7a8b9c0d" "a bakery" true
                   "default" s_boot) in
  let s2 := snd (_process_job "job_5e6f7a8b9c0d" "a bakery" true
                   (Returned "/output/logo_77aa88bb.png")
                   (Raised "500: Video generation failed") s1) in
  active_jobs s1 !! "job_5e6f7a8b9c0d" = Some (mkJobInfo "a bakery" true "default") /\
  get_active_jobs_count s1 = S (get_active_jobs_count s_boot) /\
  active_jobs s2 = active_jobs s_boot /\
  get_active_jobs_count s2 = get_active_jobs_count s_boot.
Proof.
  apply (pipeline_restores_registry s_boot "job_5e6f7a8b9c0d" "a bakery" true
           "default" (Returned "/output/logo_77aa88bb.png")
           (Raised "500: Video generation failed")).
  reflexivity.
Defined.

Lemma pipeline_unregisters s id prompt generate_video user logo_result video_result :
  active_jobs
    (snd (_process_job id prompt generate_video logo_result video_result
            (snd (start_generation_job id prompt generate_video user s))))
    !! id = None.
Proof.
  destruct s as [[f clk n h] a t b].
  destruct logo_result as [logo|cause], generate_video,
    video_result as [video|cause']; run_job; reflexivity.
Qed.

(** X12.  Cancelling a job whose pipeline has run to its end is refused:
    [cancel_job] answers [False] and leaves the store, the registry and the
    tasks exactly as they are, so the final state of the job stands. *)
Theorem cancel_after_pipeline s id prompt generate_video user logo_result
    video_result :
  let s1 := snd (start_generation_job id prompt generate_video user s) in
  let s2 := snd (_process_job id prompt generate_video logo_result video_result s1) in
  cancel_job id s2 = (false, s2).
Proof.
  intros s1 s2. apply cancel_job_inactive. apply pipeline_unregisters.
Qed.

(** X13.  Cancelling twice: whatever the first [cancel_job] did, a second one
    for the same id answers [False] and changes nothing. *)
Theorem cancel_twice s id :
  let s1 := snd (cancel_job id s) in
  cancel_job id s1 = (false, s1).
Proof.
  intros s1. apply cancel_job_inactive. unfold s1.
  destruct (active_jobs s !! id) as [info|] eqn:Ha.
  - rewrite (cancel_job_active _ _ _ Ha). cbn. apply lookup_delete_eq.
  - now rewrite (cancel_job_inactive _ _ Ha).
Qed.

(** X14.  The result of a cancelled job is discarded.  When the task of a
    job that has been marked for cancellation is resumed, nothing is written
    to the store and no backend is called, whatever the awaited call did;
    the task is finished, and a task that was inside the coroutine removes
    its id from the registry on the way out. *)
Theorem cancelled_task_writes_nothing s id t o :
  must_cancel t = true ->
  let s' := snd (resume_task id t o s) in
  world s' = world s /\
  backend_calls s' = backend_calls s /\
  tasks s' !! id
    = Some (mkTask (task_prompt t) (task_generate_video t) Finished false) /\
  active_jobs s' = match task_state t with
                   | AwaitingLogo | AwaitingVideo _ => delete id (active_jobs s)
                   | NotStarted | Finished => active_jobs s
                   end.
Proof.
  intros Hmc. destruct t as [p gv st mc]. cbn in Hmc. subst mc.
  destruct st; cbn; rewrite lookup_insert_eq; auto.
Qed.

Lemma cancelled_task_writes_nothing_witness :
  let s := snd (cancel_job "job_5e6f7a8b9c0d" s_awaiting_logo) in
  let s' := snd (resume_task "job_5e6f7a8b9c0d"
                   (mkTask "a bakery" true AwaitingLogo true)
                   (Returned "/output/logo_77aa88bb.png") s) in
  world s' = world s /\
  backend_calls s' = backend_calls s /\
  tasks s' !! "job_5e6f7a8b9c0d" = Some (mkTask "a bakery" true Finished false) /\
  active_jobs s' = delete "job_5e6f7a8b9c0d" (active_jobs s).
Proof.
  apply (cancelled_task_writes_nothing
           (snd (cancel_job "job_5e6f7a8b9c0d" s_awaiting_logo))
           "job_5e6f7a8b9c0d" (mkTask "a bakery" true AwaitingLogo true)
           (Returned "/output/logo_77aa88bb.png")).
  reflexivity.
Defined.

(** X16.  In every state the service reaches, a job of the active registry
    has a record in the store, that record is Pending or Processing, and
    [get_pending_jobs] lists it: no job of the registry is in a final
    state. *)
Theorem active_jobs_are_pending s id info :
  reachable s ->
  active_jobs s !! id = Some info ->
  exists j, fst (get_job id (world s)) = Some j /\
            (status j = PENDING \/ status j = PROCESSING) /\
            j ∈ fst (get_pending_jobs (world s)).
Proof.
  intros Hreach Ha.
  apply reachable_consistent in Hreach as [_ Hlr Hrl].
  destruct (Hrl _ _ Ha) as (t & Ht & Hlive).
  destruct (Hlr _ _ Ht Hlive) as [_ Hstat].
  apply status_in_Some in Hstat as (j & Hfind & Hst).
  exists j. split; [now rewrite get_job_stored|].
  assert (Hp : status j = PENDING \/ status j = PROCESSING)
    by (rewrite Hst; destruct (task_state t); cbn; auto).
  split; [exact Hp|].
  apply find_elem in Hfind as [Hin _].
  apply list_elem_of_In, filter_In. split; [now apply list_elem_of_In|].
  unfold is_pending. destruct Hp as [-> | ->]; reflexivity.
Qed.

Lemma active_jobs_are_pending_witness :
  exists j, fst (get_job "job_5e6f7a8b9c0d" (world s_awaiting_video)) = Some j /\
            (status j = PENDING \/ status j = PROCESSING) /\
            j ∈ fst (get_pending_jobs (world s_awaiting_video)).
Proof.
  apply (active_jobs_are_pending s_awaiting_video "job_5e6f7a8b9c0d"
           (mkJobInfo "a bakery" true "default")).
  - exact s_awaiting_video_reachable.
  - vm_compute. reflexivity.
Defined.

(** X17.  Ids stay unique: in every state the service reaches, the store
    names each job once, and so did every collection it has persisted. *)
Theorem reachable_ids_unique s :
  reachable s ->
  NoDup (job_ids (stored (world s))) /\
  Forall (fun jobs => NoDup (job_ids jobs)) (timeline s).
Proof.
  intros Hreach. apply reachable_consistent in Hreach as [Hwf _ _].
  split; [now apply well_formed_unique|].
  destruct Hwf as [_ Hu _]. unfold timeline.
  apply Forall_reverse. exact Hu.
Qed.

Lemma reachable_ids_unique_witness :
  NoDup (job_ids (stored (world s_completed))) /\
  Forall (fun jobs => NoDup (job_ids jobs)) (timeline s_completed).
Proof.
  apply (reachable_ids_unique s_completed). exact s_completed_reachable.
Defined.

Lemma append_snoc acc c rest :
  (acc +:+ String c "") +:+ rest = acc +:+ String c rest.
Proof.
  induction acc as [|a acc IH]; [reflexivity|].
  change (String a ((acc +:+ String c "") +:+ rest)
          = String a (acc +:+ String c rest)).
  now rewrite IH.
Qed.

Lemma append_empty acc : acc +:+ "" = acc.
Proof.
  induction acc as [|a acc IH]; [reflexivity|].
  change (String a (acc +:+ "") = String a acc). now rewrite IH.
Qed.

Lemma last_segment_no_slash acc name :
  no_slash name = true -> last_segment acc name = acc +:+ name.
Proof.
  revert acc. induction name as [|c rest IH]; intros acc; cbn.
  - intros _. now rewrite append_empty.
  - destruct (Ascii.eqb c "/"); cbn; [discriminate|].
    intros Hrest. rewrite (IH _ Hrest). apply append_snoc.
Qed.

(** X18.  For a logo URL of the form the logo service returns, ["/output/"]
    followed by a file name, the reference handed to the video backend is
    ["output/"] followed by that file name: the path under which the logo
    file was saved. *)
Theorem logo_path_of_output_url name :
  no_slash name = true ->
  logo_path_of ("/output/" +:+ name) = Some ("output/" +:+ name).
Proof.
  intros Hname. unfold logo_path_of.
  change ("/output/" +:+ name)
    with (String "/" (String "o" (String "u" (String "t" (String "p"
           (String "u" (String "t" (String "/" name)))))))).
  cbn [String.eqb last_segment Ascii.eqb Bool.eqb].
  now rewrite (last_segment_no_slash "" name Hname).
Qed.

Lemma logo_path_of_output_url_witness :
  logo_path_of ("/output/" +:+ "logo_77aa88bb.png")
  = Some ("output/" +:+ "logo_77aa88bb.png").
Proof.
  apply (logo_path_of_output_url "logo_77aa88bb.png"). reflexivity.
Defined.

End ManagerOperations.

(* ================================================================== *)
(** * More of the hub, and the endpoints *)
(* ================================================================== *)

Section HubOperations.
Import Hub Scenario.

Implicit Types (c : Connections) (message : string) (ws : WebSocket).

Lemma broadcast_loop_all connections message c :
  Forall (fun ws => accepts c ws = true) connections ->
  broadcast_loop connections message c
  = (Normal,
     mkConnections (active_connections c) (accepts c)
       (delivered c ++ map (fun ws => (ws, message)) connections)%list).
Proof.
  revert c. induction connections as [|x rest IH]; intros c Hall.
  - cbn. unfold ret. rewrite app_nil_r. now destruct c.
  - apply Forall_cons in Hall as [Hx Hrest]. cbn. unfold bind, send_text.
    rewrite Hx. rewrite IH by exact Hrest. cbn. now rewrite <- app_assoc.
Qed.

(** X19.  When every registered observer accepts the send, [broadcast] ends
    normally and has delivered the message to each of them, once per
    registration, in registration order; the observer list is unchanged. *)
Theorem broadcast_reaches_everyone message c :
  Forall (fun ws => accepts c ws = true) (active_connections c) ->
  broadcast message c
  = (Normal,
     mkConnections (active_connections c) (accepts c)
       (delivered c ++ map (fun ws => (ws, message)) (active_connections c))%list).
Proof. intros Hall. unfold broadcast. now apply broadcast_loop_all. Qed.

Lemma broadcast_reaches_everyone_witness :
  broadcast "job_started" hub_open
  = (Normal,
     mkConnections [1; 2; 3]%nat (accepts hub_open)
       [(1%nat, "job_started"); (2%nat, "job_started"); (3%nat, "job_started")]).
Proof.
  apply (broadcast_reaches_everyone "job_started" hub_open).
  repeat constructor.
Defined.

Lemma list_remove_None ws (l : list WebSocket) :
  ws ∉ l -> list_remove ws l = None.
Proof.
  induction l as [|x rest IH]; [reflexivity|].
  rewrite not_elem_of_cons. intros [Hne Hrest]. cbn.
  destruct (Nat.eqb_spec x ws) as [->|_]; [congruence|].
  now rewrite IH.
Qed.

Lemma list_remove_first ws (l : list WebSocket) :
  ws ∈ l ->
  exists l1 l2, l = (l1 ++ ws :: l2)%list /\ (ws ∉ l1) /\
                list_remove ws l = Some (l1 ++ l2)%list.
Proof.
  induction l as [|x rest IH]; intros Hin.
  - now apply elem_of_nil in Hin.
  - cbn. destruct (Nat.eqb_spec x ws) as [->|Hne].
    + exists [], rest. repeat split. apply not_elem_of_nil.
    + apply elem_of_cons in Hin as [->|Hin]; [congruence|].
      destruct (IH Hin) as (l1 & l2 & -> & Hl1 & ->).
      exists (x :: l1), l2. repeat split.
      apply not_elem_of_cons. split; [congruence | exact Hl1].
Qed.

(** X20.  [disconnect] of a socket that is not registered raises
    [ValueError] (from [list.remove]) and leaves the manager as it is. *)
Theorem disconnect_unregistered ws c :
  ws ∉ active_connections c -> disconnect ws c = (ValueError, c).
Proof. intros Hn. unfold disconnect. now rewrite list_remove_None. Qed.

Lemma disconnect_unregistered_witness :
  disconnect 7%nat hub_three = (ValueError, hub_three).
Proof.
  apply (disconnect_unregistered 7%nat hub_three).
  intros H. apply list_elem_of_In in H. simpl in H.
  destruct H as [H|[H|[H|[]]]]; discriminate.
Defined.

(** X21.  [disconnect] of a registered socket removes its first registration
    and nothing else: the observers keep their order, a second registration
    of the same socket stays, and nothing is sent. *)
Theorem disconnect_registered ws c :
  ws ∈ active_connections c ->
  exists l1 l2,
    active_connections c = (l1 ++ ws :: l2)%list /\ (ws ∉ l1) /\
    disconnect ws c
    = (Removed, mkConnections (l1 ++ l2)%list (accepts c) (delivered c)).
Proof.
  intros Hin. destruct (list_remove_first _ _ Hin) as (l1 & l2 & Hl & Hl1 & Hr).
  exists l1, l2. split; [exact Hl|]. split; [exact Hl1|].
  unfold disconnect. now rewrite Hr.
Qed.

Lemma disconnect_registered_witness :
  exists l1 l2,
    active_connections hub_three = (l1 ++ 2%nat :: l2)%list /\ (2%nat ∉ l1) /\
    disconnect 2%nat hub_three
    = (Removed, mkConnections (l1 ++ l2)%list (accepts hub_three)
                  (delivered hub_three)).
Proof.
  apply (disconnect_registered 2%nat hub_three).
  apply list_elem_of_In. simpl. auto.
Defined.

(** X22.  Registering a socket that is not yet registered and disconnecting
    it again gives back the manager as it was. *)
Theorem connect_disconnect_round_trip ws c :
  ws ∉ active_connections c ->
  disconnect ws (snd (connect ws c)) = (Removed, c).
Proof.
  intros Hn. unfold disconnect, connect. cbn [snd active_connections accepts delivered].
  assert (Hr : list_remove ws (active_connections c ++ [ws]) = Some (active_connections c)).
  { induction (active_connections c) as [|x rest IH]; cbn.
    - now rewrite Nat.eqb_refl.
    - apply not_elem_of_cons in Hn as [Hne Hrest].
      destruct (Nat.eqb_spec x ws) as [->|_]; [congruence|].
      now rewrite IH. }
  rewrite Hr. now destruct c.
Qed.

Lemma connect_disconnect_round_trip_witness :
  disconnect 7%nat (snd (connect 7%nat hub_three)) = (Removed, hub_three).
Proof.
  apply (connect_disconnect_round_trip 7%nat hub_three).
  intros H. apply list_elem_of_In in H. simpl in H.
  destruct H as [H|[H|[H|[]]]]; discriminate.
Defined.

End HubOperations.

Section EndpointProperties.
Import JobStorage Scenario.

Lemma count_status_total (jobs : list Job) :
  length jobs
  = (Main.count_status COMPLETED jobs + Main.count_status PENDING jobs
     + Main.count_status PROCESSING jobs + Main.count_status FAILED jobs)%nat.
Proof.
  unfold Main.count_status. induction jobs as [|j rest IH]; [reflexivity|].
  cbn [List.filter]. destruct (status j); cbn in *; lia.
Qed.

(** X23.  The dashboard: it answers with the first 50 jobs of the user at
    most, in store order, changes nothing, and its summary adds up - the
    total is the number of jobs listed and is the sum of the completed,
    pending, processing and failed counts. *)
Theorem dashboard_summary user app :
  exists summary jobs,
    Main.get_dashboard_data user app = (Main.OK (summary, jobs), app) /\
    jobs = take 50 (List.filter (fun j => String.eqb (user_id j) user)
                      (stored (JobService.world (Main.job_manager app)))) /\
    Main.total summary = length jobs /\
    (Main.total summary <= 50)%nat /\
    Main.total summary
    = (Main.completed summary + Main.pending summary
       + Main.processing summary + Main.failed summary)%nat.
Proof.
  unfold Main.get_dashboard_data. rewrite store_run.
  unfold get_user_jobs, bind, ret, load_jobs. cbn [fst snd].
  rewrite user_jobs_loop_take by (cbn [length]; lia).
  cbn [length List.app]. rewrite Nat.sub_0_r.
  do 2 eexists. split; [|split; [reflexivity|]].
  - destruct app as [[w a t b] c]. reflexivity.
  - cbn [Main.total Main.completed Main.pending Main.processing Main.failed].
    split; [reflexivity|]. split; [|apply count_status_total].
    change (Z.to_nat (Z.max 1 50)) with 50%nat. rewrite length_take.
    apply Nat.le_min_l.
Qed.

Section WithEncoder.
Variable json_dumps : Main.Event -> string.

(** X24.  [DELETE /api/job/{id}] for a job that is not in the registry
    (unknown, finished or already cancelled) answers 404; nothing is
    written, nothing is broadcast. *)
Theorem cancel_endpoint_not_active id app :
  JobService.active_jobs (Main.job_manager app) !! id = None ->
  Main.cancel_job json_dumps id app = (Main.HTTPException 404, app).
Proof.
  intros Hn. unfold Main.cancel_job. rewrite (cancel_job_inactive _ _ Hn).
  now destruct app.
Qed.

(** X25.  [DELETE /api/job/{id}] for a job of the registry, with every
    observer accepting the send: the job manager is left as by
    [JobManager.cancel_job], the answer is a success, and every observer has
    been sent the [job_cancelled] event of the id. *)
Theorem cancel_endpoint_notifies id info app :
  JobService.active_jobs (Main.job_manager app) !! id = Some info ->
  Forall (fun ws => Hub.accepts (Main.manager app) ws = true)
         (Hub.active_connections (Main.manager app)) ->
  Main.cancel_job json_dumps id app
  = (Main.OK tt,
     Main.mkApp
       (snd (JobService.cancel_job id (Main.job_manager app)))
       (Hub.mkConnections
          (Hub.active_connections (Main.manager app))
          (Hub.accepts (Main.manager app))
          (Hub.delivered (Main.manager app)
           ++ map (fun ws => (ws, json_dumps (Main.job_cancelled id)))
                  (Hub.active_connections (Main.manager app)))%list)).
Proof.
  intros Ha Hall. unfold Main.cancel_job.
  rewrite (cancel_job_active _ _ _ Ha). cbn [snd].
  unfold Hub.broadcast. now rewrite (broadcast_loop_all _ _ _ Hall).
Qed.

(** X26.  [DELETE /api/job/{id}] for a job of the registry when the send to
    some observer fails: the answer is an error 500, although the job has
    been cancelled - the job manager is left as by [JobManager.cancel_job]
    and the id is out of the registry. *)
Theorem cancel_endpoint_500_after_cancel id info app ws :
  JobService.active_jobs (Main.job_manager app) !! id = Some info ->
  ws ∈ Hub.active_connections (Main.manager app) ->
  Hub.accepts (Main.manager app) ws = false ->
  let r := Main.cancel_job json_dumps id app in
  fst r = Main.HTTPException 500 /\
  Main.job_manager (snd r) = snd (JobService.cancel_job id (Main.job_manager app)) /\
  JobService.active_jobs (Main.job_manager (snd r)) !! id = None.
Proof.
  intros Ha Hin Hclosed r. unfold r, Main.cancel_job.
  rewrite (cancel_job_active _ _ _ Ha). cbn [snd].
  pose proof (broadcast_loop_prefix (Hub.active_connections (Main.manager app))
                (json_dumps (Main.job_cancelled id)) (Main.manager app))
    as (_ & _ & pre & _ & Hpre & Hr).
  unfold Hub.broadcast.
  destruct (Hub.broadcast_loop _ _ _) as [[|ws'] c']; cbn [fst] in Hr.
  - exfalso. rewrite Hr in Hin. rewrite Forall_forall in Hpre.
    specialize (Hpre _ Hin). congruence.
  - cbn. split; [reflexivity|]. split; [reflexivity|]. apply lookup_delete_eq.
Qed.

(** X27.  [POST /api/generate-ad-async] when the send to some observer
    fails: the answer is an error 500, although the job has been started -
    its record is stored as Pending under the owner given (["default"] when
    there is none) and its id is in the registry. *)
Theorem generate_endpoint_500_after_start id prompt generate_video user app ws :
  ws ∈ Hub.active_connections (Main.manager app) ->
  Hub.accepts (Main.manager app) ws = false ->
  let r := Main.generate_ad_async json_dumps id prompt generate_video user app in
  fst r = Main.HTTPException 500 /\
  is_Some (JobService.active_jobs (Main.job_manager (snd r)) !! id) /\
  exists j, fst (get_job id (JobService.world (Main.job_manager (snd r)))) = Some j /\
            status j = PENDING /\ user_id j = Main.user_or_default user.
Proof.
  intros Hin Hclosed r. unfold r, Main.generate_ad_async.
  rewrite start_generation_job_state.
  pose proof (broadcast_loop_prefix (Hub.active_connections (Main.manager app))
                (json_dumps (Main.job_started id prompt generate_video))
                (Main.manager app))
    as (_ & _ & pre & _ & Hpre & Hr).
  unfold Hub.broadcast.
  destruct (Hub.broadcast_loop _ _ _) as [[|ws'] c']; cbn [fst] in Hr.
  - exfalso. rewrite Hr in Hin. rewrite Forall_forall in Hpre.
    specialize (Hpre _ Hin). congruence.
  - cbn [fst snd Main.job_manager JobService.active_jobs JobService.world].
    split; [reflexivity|]. split; [rewrite lookup_insert_eq; eauto|].
    eexists. split; [apply create_job_get|]. split; reflexivity.
Qed.

(** X28.  [POST /api/generate-ad-async] with every observer accepting the
    send: the answer carries the job id, the job manager is left as by
    [start_generation_job] for the owner given (["default"] when there is
    none), and every observer has been sent the [job_started] event. *)
Theorem generate_endpoint_notifies id prompt generate_video user app :
  Forall (fun ws => Hub.accepts (Main.manager app) ws = true)
         (Hub.active_connections (Main.manager app)) ->
  Main.generate_ad_async json_dumps id prompt generate_video user app
  = (Main.OK id,
     Main.mkApp
       (snd (JobService.start_generation_job id prompt generate_video
               (Main.user_or_default user) (Main.job_manager app)))
       (Hub.mkConnections
          (Hub.active_connections (Main.manager app))
          (Hub.accepts (Main.manager app))
          (Hub.delivered (Main.manager app)
           ++ map (fun ws => (ws, json_dumps
                                  (Main.job_started id prompt generate_video)))
                  (Hub.active_connections (Main.manager app)))%list)).
Proof.
  intros Hall. unfold Main.generate_ad_async.
  rewrite start_generation_job_state. cbn [snd].
  unfold Hub.broadcast. now rewrite (broadcast_loop_all _ _ _ Hall).
Qed.

End WithEncoder.

Lemma cancel_endpoint_not_active_witness :
  Main.cancel_job event_text "job_ffffffffffff" app_open
  = (Main.HTTPException 404, app_open).
Proof.
  apply (cancel_endpoint_not_active event_text "job_ffffffffffff" app_open).
  vm_compute. reflexivity.
Defined.

Lemma cancel_endpoint_notifies_witness :
  Main.cancel_job event_text "job_5e6f7a8b9c0d" app_open
  = (Main.OK tt,
     Main.mkApp
       (snd (JobService.cancel_job "job_5e6f7a8b9c0d" (Main.job_manager app_open)))
       (Hub.mkConnections
          (Hub.active_connections (Main.manager app_open))
          (Hub.accepts (Main.manager app_open))
          (Hub.delivered (Main.manager app_open)
           ++ map (fun ws => (ws, event_text (Main.job_cancelled "job_5e6f7a8b9c0d")))
                  (Hub.active_connections (Main.manager app_open)))%list)).
Proof.
  apply (cancel_endpoint_notifies event_text "job_5e6f7a8b9c0d"
           (JobService.mkJobInfo "a bakery" true "default") app_open).
  - vm_compute. reflexivity.
  - repeat constructor.
Defined.

Lemma cancel_endpoint_500_after_cancel_witness :
  let r := Main.cancel_job event_text "job_5e6f7a8b9c0d" app_one_closed in
  fst r = Main.HTTPException 500 /\
  Main.job_manager (snd r)
  = snd (JobService.cancel_job "job_5e6f7a8b9c0d" (Main.job_manager app_one_closed)) /\
  JobService.active_jobs (Main.job_manager (snd r)) !! "job_5e6f7a8b9c0d" = None.
Proof.
  apply (cancel_endpoint_500_after_cancel event_text "job_5e6f7a8b9c0d"
           (JobService.mkJobInfo "a bakery" true "default") app_one_closed 2%nat).
  - vm_compute. reflexivity.
  - apply list_elem_of_In. simpl. auto.
  - reflexivity.
Defined.

Lemma generate_endpoint_500_after_start_witness :
  let r := Main.generate_ad_async event_text "job_1a2b3c4d5e6f" "a tea house"
             false None app_one_closed in
  fst r = Main.HTTPException 500 /\
  is_Some (JobService.active_jobs (Main.job_manager (snd r)) !! "job_1a2b3c4d5e6f") /\
  exists j, fst (get_job "job_1a2b3c4d5e6f"
                   (JobService.world (Main.job_manager (snd r)))) = Some j /\
            status j = PENDING /\ user_id j = "default".
Proof.
  apply (generate_endpoint_500_after_start event_text "job_1a2b3c4d5e6f"
           "a tea house" false None app_one_closed 2%nat).
  - apply list_elem_of_In. simpl. auto.
  - reflexivity.
Defined.

Lemma generate_endpoint_notifies_witness :
  Main.generate_ad_async event_text "job_1a2b3c4d5e6f" "a tea house" true
    (Some "") app_open
  = (Main.OK "job_1a2b3c4d5e6f",
     Main.mkApp
       (snd (JobService.start_generation_job "job_1a2b3c4d5e6f" "a tea house"
               true "default" (Main.job_manager app_open)))
       (Hub.mkConnections
          (Hub.active_connections (Main.manager app_open))
          (Hub.accepts (Main.manager app_open))
          (Hub.delivered (Main.manager app_open)
           ++ map (fun ws => (ws, event_text
                                  (Main.job_started "job_1a2b3c4d5e6f"
                                     "a tea house" true)))
                  (Hub.active_connections (Main.manager app_open)))%list)).
Proof.
  apply (generate_endpoint_notifies event_text "job_1a2b3c4d5e6f" "a tea house"
           true (Some "") app_open).
  repeat constructor.
Defined.

End EndpointProperties.

Section StoreGrowth.
Import JobStorage JobService Scenario.

Lemma store_update_keeps_ids id st p l v e s :
  job_ids (stored (world (snd (store (update_job_status id st p l v e) s))))
  = job_ids (stored (world s)).
Proof. rewrite store_run. cbn [snd world]. apply update_job_status_ids. Qed.

Lemma mark_completed_keeps_ids id logo video s :
  job_ids (stored (world (snd (mark_completed id logo video s))))
  = job_ids (stored (world s)).
Proof.
  unfold mark_completed. rewrite !bind_run. cbn [ret snd finally_clean_up world].
  apply store_update_keeps_ids.
Qed.

Lemma resume_keeps_ids id t o s :
  job_ids (stored (world (snd (resume_task id t o s))))
  = job_ids (stored (world s)).
Proof.
  unfold resume_task. rewrite bind_run. cbn [set_task snd world].
  destruct (task_state t) as [| |logo|], (must_cancel t); try reflexivity.
  - unfold process_job_start. rewrite !bind_run.
    cbn [ret snd run_in_executor world]. now rewrite !store_update_keeps_ids.
  - destruct o as [logo|cause]; cbn [process_job_logo_done].
    + rewrite bind_run. destruct (task_generate_video t).
      * rewrite !bind_run. cbn [ret snd run_in_executor world].
        now rewrite !store_update_keeps_ids.
      * now rewrite mark_completed_keeps_ids, store_update_keeps_ids.
    + rewrite !bind_run. cbn [ret snd finally_clean_up world].
      apply store_update_keeps_ids.
  - destruct o as [video|cause]; cbn [process_job_video_done].
    + rewrite bind_run.
      now rewrite mark_completed_keeps_ids, store_update_keeps_ids.
    + apply mark_completed_keeps_ids.
Qed.

(** X29.  The service never deletes, renames or reorders a record: after any
    turn of the event loop the stored ids are the ids stored before, in the
    same order, with the id of a newly started job in front when the turn
    served a start request. *)
Theorem step_keeps_records s s' :
  step s s' ->
  job_ids (stored (world s')) = job_ids (stored (world s)) \/
  exists id, (id ∉ job_ids (stored (world s))) /\
             job_ids (stored (world s')) = id :: job_ids (stored (world s)).
Proof.
  intros Hstep. destruct Hstep as [s id prompt gv user Hfresh _ | s id t o _ _ | s id].
  - right. exists id. split; [exact Hfresh|]. now rewrite start_generation_job_state.
  - left. apply resume_keeps_ids.
  - left. destruct (active_jobs s !! id) as [info|] eqn:Ha.
    + rewrite (cancel_job_active _ _ _ Ha). cbn [snd world].
      apply update_job_status_ids.
    + now rewrite (cancel_job_inactive _ _ Ha).
Qed.

Lemma step_keeps_records_witness :
  job_ids (stored (world s_awaiting_video)) = job_ids (stored (world s_awaiting_logo)) \/
  exists id, (id ∉ job_ids (stored (world s_awaiting_logo))) /\
             job_ids (stored (world s_awaiting_video))
             = id :: job_ids (stored (world s_awaiting_logo)).
Proof.
  apply (step_keeps_records s_awaiting_logo s_awaiting_video).
  apply (step_resume s_awaiting_logo "job_5e6f7a8b9c0d"
           (mkTask "a bakery" true AwaitingLogo false)
           (Returned "/output/logo_77aa88bb.png")).
  - vm_compute. reflexivity.
  - discriminate.
Defined.

End StoreGrowth.

Section RegistryAndTasks.
Import JobStorage JobService Scenario.

(** X30.  In every state the service reaches, the active registry holds
    exactly the ids whose task is still to run and has not been asked to
    stop: a finished or cancelled task is never registered, and a task that
    will run again always is. *)
Theorem registry_tracks_live_tasks s id :
  reachable s ->
  (is_Some (active_jobs s !! id) <->
   exists t, tasks s !! id = Some t /\
             task_state t <> Finished /\ must_cancel t = false).
Proof.
  intros Hreach. apply reachable_consistent in Hreach as [_ Hlr Hrl]. split.
  - intros [info Ha]. exact (Hrl _ _ Ha).
  - intros (t & Ht & Hlive). exact (proj1 (Hlr _ _ Ht Hlive)).
Qed.

Lemma registry_tracks_live_tasks_witness :
  is_Some (active_jobs s_completed !! "job_5e6f7a8b9c0d") <->
  exists t, tasks s_completed !! "job_5e6f7a8b9c0d" = Some t /\
            task_state t <> Finished /\ must_cancel t = false.
Proof.
  apply (registry_tracks_live_tasks s_completed "job_5e6f7a8b9c0d").
  exact s_completed_reachable.
Defined.

End RegistryAndTasks.

(* ================================================================== *)
(** * The life of a job under interleaved turns *)
(* ================================================================== *)

Section Lifecycle.
Import JobStorage JobService Scenario.

Implicit Types (w : World) (s : Service) (id : string) (j : Job).

(** [update_job_status] on an id leaves the record of every other id. *)
Lemma update_other_job id id' st p l v e w :
  id' <> id ->
  fst (get_job id' (snd (update_job_status id st p l v e w)))
  = fst (get_job id' w).
Proof.
  intros Hne. destruct (find_job_index id (stored w)) as [i|] eqn:Hi.
  - destruct (find_job_index_Some _ _ _ Hi) as (j & Hl & Hid & _).
    destruct (update_job_status_found id st p l v e w i j Hi Hl) as (_ & Hs & _).
    pose proof (updated_job_fixed_keys st p l v e w j) as (K1 & _).
    rewrite !get_job_stored. cbn [fst]. rewrite Hs.
    eapply find_insert_other_id; eauto. congruence.
  - now rewrite (update_job_status_missing _ _ _ _ _ _ _ Hi).
Qed.

Lemma create_job_other id id' prompt ty user w :
  id' <> id ->
  fst (get_job id' (snd (create_job id prompt ty user w))) = fst (get_job id' w).
Proof.
  intros Hne. rewrite !get_job_stored. cbn [fst].
  change (stored (snd (create_job id prompt ty user w)))
    with (mkJob id prompt ty PENDING None None None (clock w (readings w))
                None None 0 user :: stored w).
  cbn [List.find].
  assert (has_id id' (mkJob id prompt ty PENDING None None None
                        (clock w (readings w)) None None 0 user) = false)
    as -> by (apply has_id_false; cbn; congruence).
  reflexivity.
Qed.

Lemma progress_in_stored id w :
  progress_in id (stored w) = progress <$> fst (get_job id w).
Proof. reflexivity. Qed.

(** An update that does not lower the progress of its job keeps the log of
    progress values in order. *)
Lemma update_progress_ok id st p l v e w j :
  progress_ok w -> fst (get_job id w) = Some j ->
  progress j <= progress (updated_job st p l v e w j) ->
  progress_ok (snd (update_job_status id st p l v e w)).
Proof.
  intros [(rest & Hrest) Hm] Hget Hle.
  destruct (get_job_found _ _ _ Hget) as (i & Hi & Hj).
  destruct (update_job_status_found id st p l v e w i j Hi Hj) as (_ & _ & Hh & _).
  split; [exists (history w); exact Hh|].
  rewrite Hh. cbn [progress_monotone]. split; [rewrite Hrest | exact Hm].
  intros id0 p0 H0. rewrite progress_in_stored in *.
  destruct (String.eqb_spec id0 id) as [->|Hne].
  - rewrite (update_job_status_get _ st p l v e _ _ Hget). cbn.
    rewrite Hget in H0. cbn in H0. injection H0 as <-. eauto.
  - rewrite update_other_job by exact Hne. exists p0. split; [exact H0 | lia].
Qed.

Lemma create_progress_ok id prompt ty user w :
  progress_ok w -> id ∉ job_ids (stored w) ->
  progress_ok (snd (create_job id prompt ty user w)).
Proof.
  intros [(rest & Hrest) Hm] Hfresh.
  assert (Hh : history (snd (create_job id prompt ty user w))
               = stored (snd (create_job id prompt ty user w)) :: history w)
    by reflexivity.
  split; [exists (history w); exact Hh|].
  rewrite Hh. cbn [progress_monotone]. split; [rewrite Hrest | exact Hm].
  intros id0 p0 H0. rewrite progress_in_stored in *.
  exists p0. split; [|lia]. rewrite create_job_other; [exact H0|].
  intros ->. rewrite get_job_stored in H0. cbn [fst] in H0.
  destruct (List.find (has_id id) (stored w)) as [r|] eqn:Hf; [|discriminate].
  apply find_elem in Hf as [Hin Hid]. apply Hfresh.
  rewrite <- Hid. apply list_elem_of_fmap. now exists r.
Qed.

Lemma tracked_init id j s :
  fst (get_job id (world s)) = Some j -> progress_ok (world s) ->
  tracked id j s s.
Proof. intros Hj Hp. unfold tracked. auto 10. Qed.

Lemma tracked_update id st p l v e s0 s j :
  tracked id j s0 s ->
  progress j <= progress (updated_job st p l v e (world s) j) ->
  tracked id (updated_job st p l v e (world s) j) s0
    (snd (store (update_job_status id st p l v e) s)) /\
  active_jobs (snd (store (update_job_status id st p l v e) s)) = active_jobs s.
Proof.
  intros (Hj & Hp & Ho & Ht & Ha) Hle. rewrite store_run.
  cbn [snd world active_jobs tasks backend_calls].
  split; [|reflexivity]. unfold tracked. cbn [world active_jobs tasks].
  split; [now apply update_job_status_get|].
  split; [now apply (update_progress_ok _ _ _ _ _ _ _ j)|].
  split; [|split; assumption].
  intros id' Hne. rewrite update_other_job by exact Hne. now apply Ho.
Qed.

Lemma tracked_clean_up id j s0 s :
  tracked id j s0 s -> tracked id j s0 (snd (finally_clean_up id s)).
Proof.
  intros (Hj & Hp & Ho & Ht & Ha). unfold tracked. cbn.
  split; [exact Hj|]. split; [exact Hp|]. split; [exact Ho|].
  split; [exact Ht|]. intros id' Hne.
  rewrite lookup_delete_ne by congruence. now apply Ha.
Qed.

(** What a turn of an uncancelled task does: it rewrites the record of its
    own job as the pipeline prescribes, and nothing else in the store. *)
Lemma live_turn s id t o j :
  live t ->
  fst (get_job id (world s)) = Some j ->
  record_at (task_state t) j ->
  progress_ok (world s) ->
  exists j',
    fst (get_job id (world (snd (resume_task id t o s)))) = Some j' /\
    record_after (task_state t) (task_generate_video t) o j' /\
    progress_ok (world (snd (resume_task id t o s))) /\
    (forall id', id' <> id ->
       fst (get_job id' (world (snd (resume_task id t o s))))
       = fst (get_job id' (world s))) /\
    tasks (snd (resume_task id t o s))
    = <[id := mkTask (task_prompt t) (task_generate_video t)
                (next_state (task_state t) (task_generate_video t) o) false]>
        (tasks s) /\
    (forall id', id' <> id ->
       active_jobs (snd (resume_task id t o s)) !! id' = active_jobs s !! id') /\
    active_jobs (snd (resume_task id t o s)) !! id
    = match next_state (task_state t) (task_generate_video t) o with
      | Finished => None
      | _ => active_jobs s !! id
      end.
Proof.
  intros [Hnf Hmc] Hget Hrec Hp. destruct t as [p gv st mc].
  cbn in Hmc, Hnf. subst mc.
  pose proof (tracked_init _ _ _ Hget Hp) as H0.
  unfold resume_task. rewrite bind_run.
  cbn [task_state task_prompt task_generate_video must_cancel].
  destruct st as [| |logo|]; cbn [record_at] in Hrec.
  - destruct Hrec as (Hs & Hpr & Hl & Hv & He & Hsa & Hc).
    unfold process_job_start. rewrite !bind_run. cbn [ret fst snd].
    eapply (tracked_update _ PROCESSING (Some 10) None None None) in H0
      as (H1 & A1); [|cbn; lia].
    eapply (tracked_update _ PROCESSING (Some 30) None None None) in H1
      as (H2 & A2); [|cbn; lia].
    destruct H2 as (G & P & O & T & A).
    eexists. split; [exact G|]. cbn [next_state record_after record_at].
    split; [cbn; auto 10|]. split; [exact P|].
    split; [exact O|]. split; [unfold set_task, run_in_executor; cbn [snd tasks]; now rewrite T|]. split; [exact A|].
    cbn. now rewrite A2, A1.
  - destruct Hrec as (Hs & Hpr & Hl & Hv & He & Hc).
    destruct o as [logo|cause]; cbn [process_job_logo_done].
    + rewrite bind_run.
      eapply (tracked_update _ PROCESSING (Some 60) (Some logo) None None) in H0
        as (H1 & A1); [|cbn; lia].
      destruct gv.
      * rewrite !bind_run. cbn [ret fst snd].
        eapply (tracked_update _ PROCESSING (Some 70) None None None) in H1
          as (H2 & A2); [|cbn; lia].
        destruct H2 as (G & P & O & T & A).
        eexists. split; [exact G|]. cbn [next_state record_after record_at].
        split; [cbn; auto 10|]. split; [exact P|].
        split; [exact O|]. split; [unfold set_task, run_in_executor; cbn [snd tasks]; now rewrite T|]. split; [exact A|].
        cbn. now rewrite A2, A1.
      * unfold mark_completed. rewrite !bind_run. cbn [ret fst snd].
        eapply (tracked_update _ COMPLETED (Some 100) (Some logo) None None)
          in H1 as (H2 & A2); [|cbn; lia].
        apply tracked_clean_up in H2. destruct H2 as (G & P & O & T & A).
        eexists. split; [exact G|].
        cbn [next_state record_after]. unfold completed_with.
        split; [cbn; eauto 10|]. split; [exact P|].
        split; [exact O|]. split; [unfold set_task, run_in_executor; cbn [snd tasks]; now rewrite T|]. split; [exact A|].
        cbn. apply lookup_delete_eq.
    + rewrite !bind_run. cbn [ret fst snd].
      eapply (tracked_update _ FAILED None None None
                (Some ("Logo generation failed: " +:+ cause))) in H0
        as (H1 & A1); [|cbn; lia].
      apply tracked_clean_up in H1. destruct H1 as (G & P & O & T & A).
      eexists. split; [exact G|].
      cbn [next_state record_after]. unfold failed_with.
      split; [cbn; eauto 10|]. split; [exact P|].
      split; [exact O|]. split; [unfold set_task, run_in_executor; cbn [snd tasks]; now rewrite T|]. split; [exact A|].
      cbn. apply lookup_delete_eq.
  - destruct Hrec as (Hs & Hpr & Hl & Hv & He & Hc).
    destruct o as [video|cause]; cbn [process_job_video_done].
    + rewrite bind_run.
      eapply (tracked_update _ PROCESSING (Some 90) (Some logo) (Some video) None)
        in H0 as (H1 & A1); [|cbn; lia].
      unfold mark_completed. rewrite !bind_run. cbn [ret fst snd].
      eapply (tracked_update _ COMPLETED (Some 100) (Some logo) (Some video) None)
        in H1 as (H2 & A2); [|cbn; lia].
      apply tracked_clean_up in H2. destruct H2 as (G & P & O & T & A).
      eexists. split; [exact G|].
      cbn [next_state record_after]. unfold completed_with.
      split; [cbn; eauto 10|]. split; [exact P|].
      split; [exact O|]. split; [unfold set_task, run_in_executor; cbn [snd tasks]; now rewrite T|]. split; [exact A|].
      cbn. apply lookup_delete_eq.
    + unfold mark_completed. rewrite !bind_run. cbn [ret fst snd].
      eapply (tracked_update _ COMPLETED (Some 100) (Some logo) None None)
        in H0 as (H1 & A1); [|cbn; lia].
      apply tracked_clean_up in H1. destruct H1 as (G & P & O & T & A).
      eexists. split; [exact G|].
      cbn [next_state record_after]. unfold completed_with.
      split; [cbn; eauto 10|]. split; [exact P|].
      split; [exact O|]. split; [unfold set_task, run_in_executor; cbn [snd tasks]; now rewrite T|]. split; [exact A|].
      cbn. apply lookup_delete_eq.
  - congruence.
Qed.


Lemma untouched_refl id s : untouched id s s.
Proof. unfold untouched. auto. Qed.

Lemma untouched_trans id s1 s2 s3 :
  untouched id s1 s2 -> untouched id s2 s3 -> untouched id s1 s3.
Proof.
  intros (G1 & T1 & A1) (G2 & T2 & A2). unfold untouched.
  rewrite G2, T2, A2. auto.
Qed.

Lemma untouched_update id id0 st p l v e s :
  id0 <> id ->
  untouched id0 s (snd (store (update_job_status id st p l v e) s)).
Proof.
  intros Hne. rewrite store_run. unfold untouched.
  cbn [snd world tasks active_jobs].
  split; [now apply update_other_job | auto].
Qed.

Lemma untouched_clean_up id id0 s :
  id0 <> id -> untouched id0 s (snd (finally_clean_up id s)).
Proof.
  intros Hne. unfold untouched. cbn. repeat split.
  apply lookup_delete_ne. congruence.
Qed.

Lemma untouched_set_task id id0 t s :
  id0 <> id -> untouched id0 s (snd (set_task id t s)).
Proof.
  intros Hne. unfold untouched. cbn. repeat split.
  apply lookup_insert_ne. congruence.
Qed.

Lemma untouched_mark_completed id id0 logo video s :
  id0 <> id -> untouched id0 s (snd (mark_completed id logo video s)).
Proof.
  intros Hne. unfold mark_completed. rewrite !bind_run. cbn [ret snd].
  eapply untouched_trans; [|now apply untouched_clean_up].
  now apply untouched_update.
Qed.

(** A turn of the task of one job leaves every other job alone: its record,
    its task and its registry entry. *)
Lemma resume_frame id id0 t o s :
  id0 <> id -> untouched id0 s (snd (resume_task id t o s)).
Proof.
  intros Hne. unfold resume_task. rewrite bind_run.
  eapply untouched_trans; [|now apply untouched_set_task].
  destruct (task_state t) as [| |logo|], (must_cancel t);
    try apply untouched_refl; try (now apply untouched_clean_up).
  - unfold process_job_start. rewrite !bind_run. cbn [ret snd run_in_executor].
    eapply untouched_trans; [|apply (untouched_update id id0); exact Hne].
    now apply untouched_update.
  - destruct o as [logo|cause]; cbn [process_job_logo_done].
    + rewrite bind_run. destruct (task_generate_video t).
      * rewrite !bind_run. cbn [ret snd run_in_executor].
        eapply untouched_trans; [|apply (untouched_update id id0); exact Hne].
        now apply untouched_update.
      * eapply untouched_trans; [|now apply untouched_mark_completed].
        now apply untouched_update.
    + rewrite !bind_run. cbn [ret snd].
      eapply untouched_trans; [|now apply untouched_clean_up].
      now apply untouched_update.
  - destruct o as [video|cause]; cbn [process_job_video_done].
    + rewrite bind_run.
      eapply untouched_trans; [|now apply untouched_mark_completed].
      now apply untouched_update.
    + now apply untouched_mark_completed.
Qed.

Lemma cancel_frame id id0 s :
  id0 <> id -> untouched id0 s (snd (cancel_job id s)).
Proof.
  intros Hne. destruct (active_jobs s !! id) as [info|] eqn:Ha.
  - rewrite (cancel_job_active _ _ _ Ha). unfold untouched.
    cbn [snd world tasks active_jobs].
    split; [now apply update_other_job|].
    split; [apply lookup_alter_ne | apply lookup_delete_ne]; congruence.
  - rewrite (cancel_job_inactive _ _ Ha). apply untouched_refl.
Qed.

Lemma start_frame id id0 prompt generate_video user s :
  id0 <> id ->
  untouched id0 s (snd (start_generation_job id prompt generate_video user s)).
Proof.
  intros Hne. rewrite start_generation_job_state. unfold untouched.
  cbn [snd world tasks active_jobs].
  split; [now apply create_job_other|].
  split; apply lookup_insert_ne; congruence.
Qed.

(** A turn of a cancelled task: the coroutine is left through its [finally]
    clause, or is never entered. *)
Lemma cancelled_turn id t o s :
  must_cancel t = true ->
  world (snd (resume_task id t o s)) = world s /\
  tasks (snd (resume_task id t o s))
  = <[id := mkTask (task_prompt t) (task_generate_video t) Finished false]>
      (tasks s) /\
  (active_jobs s !! id = None ->
   active_jobs (snd (resume_task id t o s)) !! id = None).
Proof.
  intros Hmc. destruct t as [p gv st mc]. cbn in Hmc. subst mc.
  destruct st; cbn; repeat split; auto; intros _; apply lookup_delete_eq.
Qed.

(** The backend call of a turn. *)
Lemma resume_backend_calls id t o s :
  backend_calls (snd (resume_task id t o s))
  = (backend_calls s ++ call_of_turn t o)%list.
Proof.
  destruct t as [p gv st mc]. unfold resume_task, call_of_turn.
  rewrite bind_run. cbn [must_cancel task_state task_prompt task_generate_video].
  unfold set_task. cbn [snd backend_calls].
  destruct mc, st as [| |logo|]; cbn [ret snd backend_calls];
    try (now rewrite app_nil_r);
    try (destruct o; cbn; now rewrite app_nil_r).
  - unfold process_job_start. rewrite !bind_run, !store_run. reflexivity.
  - destruct o as [logo|cause]; cbn [process_job_logo_done].
    + rewrite bind_run. destruct gv.
      * rewrite !bind_run, !store_run. reflexivity.
      * unfold mark_completed. rewrite !bind_run, !store_run. cbn.
        now rewrite app_nil_r.
    + rewrite !bind_run, !store_run. cbn. now rewrite app_nil_r.
  - destruct o as [video|cause]; cbn [process_job_video_done];
      unfold mark_completed; rewrite !bind_run, !store_run; cbn;
      now rewrite app_nil_r.
Qed.

Lemma dead_turn_no_call id t o s :
  dead t -> backend_calls (snd (resume_task id t o s)) = backend_calls s.
Proof.
  intros Hd. rewrite resume_backend_calls. unfold call_of_turn.
  destruct Hd as [Hf | Hc].
  - rewrite Hf. destruct (must_cancel t); now rewrite app_nil_r.
  - rewrite Hc. now rewrite app_nil_r.
Qed.

Lemma record_after_suspended st gv o j :
  next_state st gv o <> Finished -> record_after st gv o j ->
  record_at (next_state st gv o) j /\
  (forall logo, next_state st gv o = AwaitingVideo logo -> gv = true).
Proof.
  destruct st as [| |logo0|], o as [r|c], gv; cbn; try congruence;
    intros _ H; (split; [exact H | intros logo; congruence]).
Qed.

(** The records of the uncancelled tasks, and the order of the progress
    log, are kept by every turn of the event loop. *)
Lemma step_keeps_records_ok s s' :
  consistent s -> records_ok s -> progress_ok (world s) -> step s s' ->
  records_ok s' /\ progress_ok (world s').
Proof.
  intros Hc Hr Hp Hstep.
  destruct Hstep as [s id prompt gv user Hfresh Hnone | s id t o Ht Hnf | s id].
  - rewrite start_generation_job_state. cbn [snd world]. split.
    + intros id' t' Ht' Hlive. cbn [tasks world] in *.
      destruct (decide (id' = id)) as [->|Hne].
      * rewrite lookup_insert_eq in Ht'. injection Ht' as <-.
        eexists. split; [apply create_job_get|]. cbn.
        split; [auto 10 | discriminate].
      * rewrite lookup_insert_ne in Ht' by congruence.
        destruct (Hr _ _ Ht' Hlive) as (j & Hj & Hrec).
        exists j. split; [|exact Hrec]. now rewrite create_job_other.
    + now apply create_progress_ok.
  - destruct (must_cancel t) eqn:Hmc.
    + destruct (cancelled_turn id t o s Hmc) as (Hw & Htk & _).
      rewrite Hw. split; [|exact Hp].
      intros id' t' Ht' Hlive. rewrite Htk in Ht'. rewrite Hw.
      destruct (decide (id' = id)) as [->|Hne].
      * rewrite lookup_insert_eq in Ht'. injection Ht' as <-.
        destruct Hlive as [Hl _]. now cbn in Hl.
      * rewrite lookup_insert_ne in Ht' by congruence. now apply Hr.
    + assert (Hlive : live t) by (split; assumption).
      destruct (Hr _ _ Ht Hlive) as (j & Hj & Hrec & Hgv).
      destruct (live_turn s id t o j Hlive Hj Hrec Hp)
        as (j' & Hj' & Hafter & Hp' & Hother & Htk & _).
      split; [|exact Hp'].
      intros id' t' Ht' Hlive'. rewrite Htk in Ht'.
      destruct (decide (id' = id)) as [->|Hne].
      * rewrite lookup_insert_eq in Ht'. injection Ht' as <-.
        destruct Hlive' as [Hl _]. cbn in Hl.
        destruct (record_after_suspended _ _ _ _ Hl Hafter) as [Hat Hv].
        exists j'. split; [exact Hj'|]. split; [exact Hat | exact Hv].
      * rewrite lookup_insert_ne in Ht' by congruence.
        rewrite Hother by exact Hne. now apply Hr.
  - destruct (active_jobs s !! id) as [info|] eqn:Ha.
    + rewrite (cancel_job_active _ _ _ Ha). cbn [snd world tasks].
      destruct Hc as [_ _ Hrl]. destruct (Hrl _ _ Ha) as (t & Ht & Hlive).
      destruct (Hr _ _ Ht Hlive) as (j & Hj & Hrec & _). split.
      * intros id' t' Ht' Hlive'. cbn [tasks world] in *.
        destruct (decide (id' = id)) as [->|Hne].
        -- rewrite lookup_alter_eq, Ht in Ht'. injection Ht' as <-.
           now apply task_cancel_not_live in Hlive'.
        -- rewrite lookup_alter_ne in Ht' by congruence.
           rewrite update_other_job by exact Hne. now apply Hr.
      * apply (update_progress_ok _ _ _ _ _ _ _ j Hp Hj).
        destruct Hlive as [Hnf _].
        destruct (task_state t); cbn in Hrec; [| | |congruence];
          destruct Hrec as (_ & Hpr & _); cbn; lia.
    + rewrite (cancel_job_inactive _ _ Ha). auto.
Qed.

Lemma reachable_records_ok s :
  reachable s -> records_ok s /\ progress_ok (world s).
Proof.
  induction 1 as [s (Ha & Ht & _ & _ & Hh) | s s' Hreach [Hr Hp] Hstep].
  - split.
    + intros id t. rewrite Ht, lookup_empty. discriminate.
    + split; [exists []; exact Hh | rewrite Hh; cbn; auto].
  - apply reachable_consistent in Hreach.
    eapply step_keeps_records_ok; eauto.
Qed.

Lemma reachable_rtc s s' : reachable s -> rtc step s s' -> reachable s'.
Proof.
  intros Hr Hs. induction Hs as [|s1 s2 s3 H12 _ IH]; [exact Hr|].
  apply IH. eapply reachable_step; eauto.
Qed.

(** Once a job is settled no turn of the event loop changes its record:
    its task is never started again, a cancel request for it is refused,
    and the turns of other jobs do not write to it. *)
Lemma step_settled id j s s' : settled id j s -> step s s' -> settled id j s'.
Proof.
  intros ((t & Ht & Hd) & Ha & Hj) Hstep.
  destruct Hstep as [s id0 prompt gv user Hfresh Hnone | s id0 t0 o Ht0 Hnf | s id0].
  - assert (Hne : id <> id0) by (intros ->; congruence).
    destruct (start_frame id0 id prompt gv user s Hne) as (G & T & A).
    unfold settled. rewrite G, T, A. eauto.
  - destruct (decide (id = id0)) as [<-|Hne].
    + assert (t0 = t) as -> by congruence.
      assert (Hmc : must_cancel t = true) by (destruct Hd; congruence).
      destruct (cancelled_turn id t o s Hmc) as (Hw & Htk & Hact).
      unfold settled. rewrite Hw, Htk, lookup_insert_eq.
      split; [eexists; split; [reflexivity | now left]|].
      split; [now apply Hact | exact Hj].
    + destruct (resume_frame id0 id t0 o s Hne) as (G & T & A).
      unfold settled. rewrite G, T, A. eauto.
  - destruct (decide (id = id0)) as [<-|Hne].
    + rewrite (cancel_job_inactive _ _ Ha). unfold settled. eauto.
    + destruct (cancel_frame id0 id s Hne) as (G & T & A).
      unfold settled. rewrite G, T, A. eauto.
Qed.

Lemma settled_for_good id j s s' :
  settled id j s -> rtc step s s' -> settled id j s'.
Proof.
  intros Hs Hsteps. induction Hsteps as [|s1 s2 s3 H12 _ IH]; [exact Hs|].
  apply IH. eapply step_settled; eauto.
Qed.

(** What "settled" gives in every later state: the record stands, and no
    turn of the job's task calls a backend. *)
Lemma settled_final id j s s' :
  settled id j s -> rtc step s s' ->
  fst (get_job id (world s')) = Some j /\
  forall t o, tasks s' !! id = Some t ->
              backend_calls (snd (resume_task id t o s')) = backend_calls s'.
Proof.
  intros Hs Hsteps.
  destruct (settled_for_good _ _ _ _ Hs Hsteps) as ((t & Ht & Hd) & _ & Hj).
  split; [exact Hj|]. intros t' o Ht'. apply dead_turn_no_call. congruence.
Qed.

(** The state in which a turn leaves the task. *)
Lemma resume_task_state id t o s :
  tasks (snd (resume_task id t o s))
  = <[id := mkTask (task_prompt t) (task_generate_video t)
              (if must_cancel t then Finished
               else next_state (task_state t) (task_generate_video t) o)
              false]> (tasks s).
Proof.
  destruct t as [p gv st mc]. unfold resume_task. rewrite bind_run.
  cbn [must_cancel task_state task_prompt task_generate_video].
  unfold set_task. cbn [snd tasks].
  destruct mc, st as [| |logo|]; cbn [ret fst snd tasks next_state];
    try reflexivity.
  - unfold process_job_start. rewrite !bind_run, !store_run. reflexivity.
  - destruct o as [logo|cause]; cbn [process_job_logo_done].
    + rewrite bind_run. destruct gv.
      * rewrite !bind_run, !store_run. reflexivity.
      * unfold mark_completed. rewrite !bind_run, !store_run. reflexivity.
    + rewrite !bind_run, !store_run. reflexivity.
  - destruct o as [video|cause]; cbn [process_job_video_done];
      unfold mark_completed; rewrite !bind_run, !store_run; reflexivity.
Qed.

(** A task that waits for its video still does so, with the same logo, in
    every later state in which it has neither run nor been cancelled. *)
Lemma video_wait_step id logo s s' :
  (exists t, tasks s !! id = Some t /\
             (task_state t = AwaitingVideo logo \/ dead t)) ->
  step s s' ->
  exists t, tasks s' !! id = Some t /\
            (task_state t = AwaitingVideo logo \/ dead t).
Proof.
  intros (t & Ht & Hst) Hstep.
  destruct Hstep as [s id0 prompt gv user Hfresh Hnone | s id0 t0 o Ht0 Hnf | s id0].
  - assert (Hne : id <> id0) by (intros ->; congruence).
    destruct (start_frame id0 id prompt gv user s Hne) as (_ & T & _).
    rewrite T. eauto.
  - destruct (decide (id = id0)) as [<-|Hne].
    + assert (t0 = t) as -> by congruence.
      rewrite resume_task_state, lookup_insert_eq. eexists. split; [reflexivity|].
      right. left. cbn. destruct (must_cancel t) eqn:Hmc; [reflexivity|].
      destruct Hst as [-> | [Hf | Hc]]; [reflexivity | congruence | congruence].
    + destruct (resume_frame id0 id t0 o s Hne) as (_ & T & _).
      rewrite T. eauto.
  - destruct (decide (id = id0)) as [<-|Hne].
    + destruct (active_jobs s !! id) as [info|] eqn:Ha.
      * rewrite (cancel_job_active _ _ _ Ha). cbn [snd tasks].
        rewrite lookup_alter_eq, Ht. cbn. eexists. split; [reflexivity|].
        unfold task_cancel, dead.
        destruct Hst as [Hv | [Hf | Hc]].
        -- rewrite Hv. cbn. now left.
        -- rewrite Hf. auto.
        -- destruct (task_state t); cbn; auto.
      * rewrite (cancel_job_inactive _ _ Ha). eauto.
    + destruct (cancel_frame id0 id s Hne) as (_ & T & _).
      rewrite T. eauto.
Qed.

Lemma video_wait id logo s s' t t' :
  tasks s !! id = Some t -> task_state t = AwaitingVideo logo ->
  rtc step s s' -> tasks s' !! id = Some t' -> live t' ->
  task_state t' = AwaitingVideo logo.
Proof.
  intros Ht Hst Hsteps Ht' [Hnf Hmc].
  assert (H : exists t, tasks s' !! id = Some t /\
                        (task_state t = AwaitingVideo logo \/ dead t)).
  { assert (H0 : exists t, tasks s !! id = Some t /\
                           (task_state t = AwaitingVideo logo \/ dead t))
      by eauto.
    clear Ht Hst Ht'. induction Hsteps as [|s1 s2 s3 H12 _ IH]; [exact H0|].
    apply IH. eapply video_wait_step; eauto. }
  destruct H as (t1 & Ht1 & Hst1). assert (t1 = t') as -> by congruence.
  destruct Hst1 as [Hv | [Hf | Hc]]; [exact Hv | congruence | congruence].
Qed.

(** The record and the task left by the last turn of an uncancelled
    pipeline are settled. *)
Lemma finished_turn_settled s id t o j :
  live t -> fst (get_job id (world s)) = Some j ->
  record_at (task_state t) j -> progress_ok (world s) ->
  next_state (task_state t) (task_generate_video t) o = Finished ->
  exists j', fst (get_job id (world (snd (resume_task id t o s)))) = Some j' /\
             record_after (task_state t) (task_generate_video t) o j' /\
             settled id j' (snd (resume_task id t o s)).
Proof.
  intros Hlive Hj Hrec Hp Hnext.
  destruct (live_turn s id t o j Hlive Hj Hrec Hp)
    as (j' & Hj' & Hafter & _ & _ & Htk & _ & Hact).
  exists j'. split; [exact Hj'|]. split; [exact Hafter|].
  rewrite Hnext in Htk, Hact. unfold settled.
  rewrite Htk, lookup_insert_eq.
  split; [eexists; split; [reflexivity | now left]|].
  split; [exact Hact | exact Hj'].
Qed.

Lemma progress_advances_refl (jobs : list Job) : progress_advances jobs jobs.
Proof. intros id p Hp. exists p. split; [exact Hp | lia]. Qed.

Lemma progress_advances_trans (old mid new : list Job) :
  progress_advances old mid -> progress_advances mid new ->
  progress_advances old new.
Proof.
  intros H12 H23 id p Hp.
  destruct (H12 _ _ Hp) as (q & Hq & Hpq).
  destruct (H23 _ _ Hq) as (r & Hr & Hqr).
  exists r. split; [exact Hr | lia].
Qed.

Lemma progress_monotone_head new rest k old :
  progress_monotone (new :: rest) -> (new :: rest) !! k = Some old ->
  progress_advances old new.
Proof.
  revert new k. induction rest as [|y rest IH]; intros new k Hm Hk.
  - destruct k as [|k]; [|discriminate]. injection Hk as <-.
    apply progress_advances_refl.
  - destruct k as [|k].
    + injection Hk as <-. apply progress_advances_refl.
    + destruct Hm as [Hyx Hm]. eapply progress_advances_trans; [|exact Hyx].
      eapply IH; eauto.
Qed.

Lemma progress_monotone_lookup log i k old new :
  progress_monotone log -> (i <= k)%nat ->
  log !! i = Some new -> log !! k = Some old -> progress_advances old new.
Proof.
  revert i k. induction log as [|x log IH]; intros i k Hm Hik Hi Hk;
    [discriminate|].
  destruct i as [|i].
  - injection Hi as <-. eapply progress_monotone_head; eauto.
  - destruct k as [|k]; [lia|]. destruct Hm as [_ Hm].
    eapply (IH i k); eauto. lia.
Qed.


Lemma s_cancelled_during_video_reachable : reachable s_cancelled_during_video.
Proof.
  eapply reachable_step; [exact s_awaiting_video_reachable | apply step_cancel].
Qed.

Lemma s_two_jobs_reachable : reachable s_two_jobs.
Proof.
  eapply reachable_step; [exact s_awaiting_logo_reachable|].
  apply step_start; [|vm_compute; reflexivity].
  intros H. apply list_elem_of_In in H. vm_compute in H.
  destruct H as [H|[]]. discriminate.
Qed.

Lemma s_two_pending_reachable : reachable s_two_pending.
Proof.
  eapply reachable_step; [exact s_started_reachable|].
  apply step_start; [|vm_compute; reflexivity].
  intros H. apply list_elem_of_In in H. vm_compute in H.
  destruct H as [H|[]]. discriminate.
Qed.




(** C8, as stated, fails for a job that is cancelled while its video is
    being made.  The job was started with a video asked for, its logo call
    returned, its video call raises - and the record ends Failed, not
    Completed. *)
Lemma C8_cancelled_job_ends_failed :
  reachable s_cancelled_during_video /\
  tasks s_cancelled_during_video !! "job_5e6f7a8b9c0d"
  = Some (mkTask "a bakery" true (AwaitingVideo "/output/logo_77aa88bb.png") true) /\
  let s' := snd (resume_task "job_5e6f7a8b9c0d"
                   (mkTask "a bakery" true
                      (AwaitingVideo "/output/logo_77aa88bb.png") true)
                   (Raised "boom") s_cancelled_during_video) in
  exists j, fst (get_job "job_5e6f7a8b9c0d" (world s')) = Some j /\
            status j = FAILED /\ status j <> COMPLETED /\
            logo_url j = Some "/output/logo_77aa88bb.png" /\
            error_message j = Some "Job cancelled by user".
Proof.
  split; [exact s_cancelled_during_video_reachable|].
  split; [vm_compute; reflexivity|].
  eexists. split; [vm_compute; reflexivity|].
  split; [reflexivity|]. split; [discriminate|]. split; reflexivity.
Qed.

(** C8, amended.  In every state the service reaches, take a job started
    with a video asked for whose task waits for the logo call and has not
    been cancelled; the logo call returns [logo]; other turns of the event
    loop may follow; then, the job not having been cancelled in between,
    the video call raises.  The job's record becomes Completed with
    progress 100, [logo_url] set to [logo] and no video URL, and stays so
    in every later state. *)
Theorem C8_video_failure_completes_uncancelled_job s id t logo s2 t2 cause :
  reachable s ->
  tasks s !! id = Some t ->
  task_state t = AwaitingLogo ->
  must_cancel t = false ->
  task_generate_video t = true ->
  rtc step (snd (resume_task id t (Returned logo) s)) s2 ->
  tasks s2 !! id = Some t2 ->
  live t2 ->
  let s3 := snd (resume_task id t2 (Raised cause) s2) in
  exists j,
    fst (get_job id (world s3)) = Some j /\
    status j = COMPLETED /\ progress j = 100 /\
    logo_url j = Some logo /\ video_url j = None /\
    forall s4, rtc step s3 s4 -> fst (get_job id (world s4)) = Some j.
Proof.
  intros Hreach Ht Hst Hmc Hgv Hsteps Ht2 Hlive2 s3.
  set (s1 := snd (resume_task id t (Returned logo) s)) in *.
  assert (Hreach1 : reachable s1).
  { eapply reachable_step; [exact Hreach|].
    apply step_resume; [exact Ht | congruence]. }
  assert (Ht1 : tasks s1 !! id
                = Some (mkTask (task_prompt t) true (AwaitingVideo logo) false)).
  { unfold s1. rewrite resume_task_state, lookup_insert_eq, Hmc, Hst, Hgv.
    reflexivity. }
  assert (Hst2 : task_state t2 = AwaitingVideo logo)
    by (eapply (video_wait id logo s1 s2); eauto).
  pose proof (reachable_rtc _ _ Hreach1 Hsteps) as Hreach2.
  destruct (reachable_records_ok _ Hreach2) as [Hr Hp].
  destruct (Hr _ _ Ht2 Hlive2) as (j & Hj & Hrec & _).
  destruct (finished_turn_settled s2 id t2 (Raised cause) j Hlive2 Hj Hrec Hp)
    as (j' & Hj' & Hafter & Hset); [now rewrite Hst2|].
  rewrite Hst2 in Hafter. cbn in Hafter.
  destruct Hafter as (Hs & Hpr & Hl & Hv & _).
  exists j'. repeat (split; [assumption|]).
  intros s4 Hsteps4. now apply (settled_final _ _ _ _ Hset).
Qed.

Lemma C8_video_failure_completes_uncancelled_job_witness :
  let s2 := snd (resume_task "job_5e6f7a8b9c0d"
                   (mkTask "a bakery" true AwaitingLogo false)
                   (Returned "/output/logo_77aa88bb.png") s_two_jobs) in
  let s3 := snd (resume_task "job_5e6f7a8b9c0d"
                   (mkTask "a bakery" true
                      (AwaitingVideo "/output/logo_77aa88bb.png") false)
                   (Raised "500: Video generation failed") s2) in
  exists j,
    fst (get_job "job_5e6f7a8b9c0d" (world s3)) = Some j /\
    status j = COMPLETED /\ progress j = 100 /\
    logo_url j = Some "/output/logo_77aa88bb.png" /\ video_url j = None /\
    forall s4, rtc step s3 s4 ->
               fst (get_job "job_5e6f7a8b9c0d" (world s4)) = Some j.
Proof.
  intros s2.
  apply (C8_video_failure_completes_uncancelled_job s_two_jobs
           "job_5e6f7a8b9c0d" (mkTask "a bakery" true AwaitingLogo false)
           "/output/logo_77aa88bb.png" s2
           (mkTask "a bakery" true (AwaitingVideo "/output/logo_77aa88bb.png") false)
           "500: Video generation failed").
  - exact s_two_jobs_reachable.
  - vm_compute. reflexivity.
  - reflexivity.
  - reflexivity.
  - reflexivity.
  - apply rtc_refl.
  - vm_compute. reflexivity.
  - split; [discriminate | reflexivity].
Defined.

End Lifecycle.

(* ================================================================== *)
(** * Turns, backend calls, progress and early cancellation *)
(* ================================================================== *)

Section LifecycleProperties.
Import JobStorage JobService Scenario.

(** X8. In every state the service reaches, a turn of a task that has not
    been cancelled rewrites the record of its own job as [_process_job]
    prescribes ([record_after]: Processing at 30 after the first turn;
    after the logo call Processing at 70 with the logo URL, or Completed at
    100 when no video was asked for, or Failed at 100 with the cause in the
    message when the call raised; after the video call Completed at 100,
    with the video URL exactly when the call returned), leaves the record
    of every other job as it was, and leaves the task where the coroutine
    is suspended next.  When the turn is the last of the pipeline, the
    record is the same in every later state. *)
Theorem turn_rewrites_own_record s id t o :
  reachable s ->
  tasks s !! id = Some t ->
  live t ->
  let s' := snd (resume_task id t o s) in
  let next := next_state (task_state t) (task_generate_video t) o in
  exists j',
    fst (get_job id (world s')) = Some j' /\
    record_after (task_state t) (task_generate_video t) o j' /\
    tasks s' !! id
    = Some (mkTask (task_prompt t) (task_generate_video t) next false) /\
    (forall id', id' <> id ->
       fst (get_job id' (world s')) = fst (get_job id' (world s))) /\
    (next = Finished ->
     forall s'', rtc step s' s'' -> fst (get_job id (world s'')) = Some j').
Proof.
  intros Hreach Ht Hlive s' next.
  destruct (reachable_records_ok _ Hreach) as [Hr Hp].
  destruct (Hr _ _ Ht Hlive) as (j & Hj & Hrec & _).
  destruct (live_turn s id t o j Hlive Hj Hrec Hp)
    as (j' & Hj' & Hafter & _ & Hother & Htk & _ & _).
  exists j'. split; [exact Hj'|]. split; [exact Hafter|].
  split; [unfold s'; rewrite Htk; apply lookup_insert_eq|].
  split; [exact Hother|].
  intros Hnext s'' Hsteps.
  destruct (finished_turn_settled s id t o j Hlive Hj Hrec Hp Hnext)
    as (j2 & Hj2 & _ & Hset).
  assert (j2 = j') as -> by congruence.
  now apply (settled_final _ _ _ _ Hset).
Qed.

Lemma turn_rewrites_own_record_witness :
  let t := mkTask "a bakery" true AwaitingLogo false in
  let o := Returned "/output/logo_77aa88bb.png" in
  let s' := snd (resume_task "job_5e6f7a8b9c0d" t o s_two_jobs) in
  let next := next_state (task_state t) (task_generate_video t) o in
  exists j',
    fst (get_job "job_5e6f7a8b9c0d" (world s')) = Some j' /\
    record_after (task_state t) (task_generate_video t) o j' /\
    tasks s' !! "job_5e6f7a8b9c0d"
    = Some (mkTask (task_prompt t) (task_generate_video t) next false) /\
    (forall id', id' <> "job_5e6f7a8b9c0d" ->
       fst (get_job id' (world s')) = fst (get_job id' (world s_two_jobs))) /\
    (next = Finished ->
     forall s'', rtc step s' s'' ->
                 fst (get_job "job_5e6f7a8b9c0d" (world s'')) = Some j').
Proof.
  intros t o.
  apply (turn_rewrites_own_record s_two_jobs "job_5e6f7a8b9c0d" t o).
  - exact s_two_jobs_reachable.
  - vm_compute. reflexivity.
  - split; [discriminate | reflexivity].
Defined.

(** X9. The backend calls of the service, turn by turn.  A turn of a task
    adds to the calls made so far exactly [call_of_turn]: nothing when the
    task has been cancelled; [generate_logo(prompt)] when the task has not
    run yet; [generate_ad_video(prompt, logo_path)], with the path derived
    from the logo URL, when the logo call returned and a video was asked
    for; nothing in every other case (logo call raised, no video asked for,
    video call answered, task already finished).  Accepting a job and
    cancelling a job call no backend. *)
Theorem turn_backend_calls s id t o prompt generate_video user :
  backend_calls (snd (resume_task id t o s))
  = (backend_calls s ++ call_of_turn t o)%list /\
  (must_cancel t = true -> call_of_turn t o = []) /\
  (must_cancel t = false -> task_state t = NotStarted ->
   call_of_turn t o = [generate_logo (task_prompt t)]) /\
  (forall logo, must_cancel t = false -> task_state t = AwaitingLogo ->
     o = Returned logo -> task_generate_video t = true ->
     call_of_turn t o
     = [generate_ad_video (task_prompt t) (logo_path_of logo)]) /\
  (forall cause, task_state t = AwaitingLogo -> o = Raised cause ->
     call_of_turn t o = []) /\
  (task_state t = AwaitingLogo -> task_generate_video t = false ->
   call_of_turn t o = []) /\
  (forall logo, task_state t = AwaitingVideo logo -> call_of_turn t o = []) /\
  (task_state t = Finished -> call_of_turn t o = []) /\
  backend_calls (snd (cancel_job id s)) = backend_calls s /\
  backend_calls (snd (start_generation_job id prompt generate_video user s))
  = backend_calls s.
Proof.
  split; [apply resume_backend_calls|].
  destruct t as [p gv st mc]. unfold call_of_turn.
  cbn [must_cancel task_state task_prompt task_generate_video].
  split; [now intros ->|].
  split; [now intros -> ->|].
  split; [now intros logo -> -> -> ->|].
  split; [intros cause -> ->; now destruct mc|].
  split; [intros -> ->; now destruct mc, o|].
  split; [intros logo ->; now destruct mc|].
  split; [intros ->; now destruct mc|].
  split; [|reflexivity].
  unfold cancel_job. destruct (active_jobs s !! id) as [info|]; [|reflexivity].
  rewrite bind_run, store_run. reflexivity.
Qed.

Lemma turn_backend_calls_witness :
  must_cancel (mkTask "a bakery" true AwaitingLogo true) = true /\
  call_of_turn (mkTask "a bakery" true AwaitingLogo true)
    (Returned "/output/logo_77aa88bb.png") = [] /\
  backend_calls
    (snd (resume_task "job_5e6f7a8b9c0d"
            (mkTask "a bakery" true AwaitingLogo true)
            (Returned "/output/logo_77aa88bb.png") s_cancelled_during_logo))
  = (backend_calls s_cancelled_during_logo ++ [])%list.
Proof.
  split; [reflexivity|].
  destruct (turn_backend_calls s_cancelled_during_logo "job_5e6f7a8b9c0d"
              (mkTask "a bakery" true AwaitingLogo true)
              (Returned "/output/logo_77aa88bb.png") "a bakery" true "default")
    as (Hcalls & Hnone & _).
  split; [exact (Hnone eq_refl)|].
  rewrite <- (Hnone eq_refl). exact Hcalls.
Defined.

(** X11. The progress of a job never goes down.  In every state the
    service reaches, for any two collections written to [jobs.json], [old]
    before [new], a job that has progress [p] in [old] has a record in
    [new] whose progress is at least [p] - whatever other jobs were
    started, run or cancelled in between. *)
Theorem progress_never_goes_down s (m n : nat) (old new : list Job) id p :
  reachable s ->
  (m <= n)%nat ->
  timeline s !! m = Some old ->
  timeline s !! n = Some new ->
  progress_in id old = Some p ->
  exists q, progress_in id new = Some q /\ p <= q.
Proof.
  intros Hreach Hmn Hold Hnew Hp.
  destruct (reachable_records_ok _ Hreach) as [_ [_ Hm]].
  unfold timeline in Hold, Hnew.
  apply reverse_lookup_Some in Hold as [Hold Hlm].
  apply reverse_lookup_Some in Hnew as [Hnew Hln].
  assert (Hadv : progress_advances old new).
  { eapply (progress_monotone_lookup _ _ _ old new Hm);
      [|exact Hnew | exact Hold]. lia. }
  exact (Hadv _ _ Hp).
Qed.

Lemma progress_never_goes_down_witness :
  exists q, progress_in "job_5e6f7a8b9c0d" (stored (world s_completed)) = Some q /\
            30 <= q.
Proof.
  apply (progress_never_goes_down s_completed 3 7
           (stored (world s_awaiting_logo)) (stored (world s_completed))
           "job_5e6f7a8b9c0d" 30).
  - exact s_completed_reachable.
  - lia.
  - vm_compute. reflexivity.
  - vm_compute. reflexivity.
  - vm_compute. reflexivity.
Defined.

(** X15. A job cancelled before its task has run.  In every state the
    service reaches, cancelling a job whose task has not had its first turn
    is accepted and calls no backend; the record becomes Failed at progress
    100 with the message ["Job cancelled by user"], a completion time, no
    start time and no URL.  In every later state the record is the same,
    and no turn of the job's task calls a backend: the coroutine body is
    never entered. *)
Theorem cancel_before_first_turn s id t :
  reachable s ->
  tasks s !! id = Some t ->
  task_state t = NotStarted ->
  must_cancel t = false ->
  let s1 := snd (cancel_job id s) in
  fst (cancel_job id s) = true /\
  backend_calls s1 = backend_calls s /\
  exists j,
    fst (get_job id (world s1)) = Some j /\
    status j = FAILED /\ progress j = 100 /\
    error_message j = Some "Job cancelled by user" /\
    logo_url j = None /\ video_url j = None /\
    started_at j = None /\ is_Some (completed_at j) /\
    forall s2, rtc step s1 s2 ->
      fst (get_job id (world s2)) = Some j /\
      forall t2 o, tasks s2 !! id = Some t2 ->
        backend_calls (snd (resume_task id t2 o s2)) = backend_calls s2.
Proof.
  intros Hreach Ht Hst Hmc s1.
  assert (Hlive : live t) by (split; [congruence | exact Hmc]).
  destruct (reachable_records_ok _ Hreach) as [Hr _].
  destruct (Hr _ _ Ht Hlive) as (j & Hj & Hrec & _).
  rewrite Hst in Hrec. destruct Hrec as (_ & _ & Hl & Hv & _ & Hs & _).
  destruct (live_registered _ (reachable_consistent _ Hreach) _ _ Ht Hlive)
    as [[info Ha] _].
  unfold s1. rewrite (cancel_job_active _ _ _ Ha). cbn [fst snd backend_calls].
  split; [reflexivity|]. split; [reflexivity|].
  pose proof (update_job_status_get id FAILED None None None
                (Some "Job cancelled by user") (world s) j Hj) as Hget.
  eexists. cbn [world]. split; [exact Hget|].
  split; [reflexivity|]. split; [reflexivity|]. split; [reflexivity|].
  split; [exact Hl|]. split; [exact Hv|]. split; [exact Hs|].
  split; [eexists; reflexivity|].
  intros s2 Hsteps. eapply settled_final; [|exact Hsteps].
  unfold settled. cbn [tasks active_jobs world].
  split.
  - exists (task_cancel t). rewrite lookup_alter_eq, Ht. split; [reflexivity|].
    right. unfold task_cancel. rewrite Hst. reflexivity.
  - split; [apply lookup_delete_eq | exact Hget].
Qed.

Lemma cancel_before_first_turn_witness :
  let s1 := snd (cancel_job "job_5e6f7a8b9c0d" s_two_pending) in
  fst (cancel_job "job_5e6f7a8b9c0d" s_two_pending) = true /\
  backend_calls s1 = backend_calls s_two_pending /\
  exists j,
    fst (get_job "job_5e6f7a8b9c0d" (world s1)) = Some j /\
    status j = FAILED /\ progress j = 100 /\
    error_message j = Some "Job cancelled by user" /\
    logo_url j = None /\ video_url j = None /\
    started_at j = None /\ is_Some (completed_at j) /\
    forall s2, rtc step s1 s2 ->
      fst (get_job "job_5e6f7a8b9c0d" (world s2)) = Some j /\
      forall t2 o, tasks s2 !! "job_5e6f7a8b9c0d" = Some t2 ->
        backend_calls (snd (resume_task "job_5e6f7a8b9c0d" t2 o s2))
        = backend_calls s2.
Proof.
  apply (cancel_before_first_turn s_two_pending "job_5e6f7a8b9c0d"
           (mkTask "a bakery" true NotStarted false)).
  - exact s_two_pending_reachable.
  - vm_compute. reflexivity.
  - reflexivity.
  - reflexivity.
Defined.

End LifecycleProperties.
